(** * beelib.beehbase: batched writes and paginated range scans over HBase

    A shallow embedding of [src/beelib/beehbase.py]: [__get_h_table__],
    [save_to_hbase] and [get_hbase_data_batch].  The happybase client is not
    part of the repository; it appears here only through its interface: the
    calls the code makes on it are recorded in order, and what the store
    answers ([create_table], [scan]) is a parameter of the model. *)

From Stdlib Require Import ZArith List String Ascii Bool Lia Sorted FinFun.
From Stdlib Require Import DecimalString DecimalZ.
Import ListNotations.

Local Open Scope Z_scope.

(** ** Python-level notions shared by the writer and the cursor *)

Module Py.

(** An exception: the qualified name of its class and its message. *)
Record exn : Type := MkExn { exn_class : string; exn_msg : string }.

(** [str(e.__class__)] *)
Definition class_str (e : exn) : string :=
  ("<class '" ++ exn_class e ++ "'>")%string.

(** A computation that returns or raises. *)
Inductive result (A : Type) : Type :=
| Ok (a : A)
| Raise (e : exn).
Arguments Ok {A} a.
Arguments Raise {A} e.

Definition bind {A B : Type} (r : result A) (k : A -> result B) : result B :=
  match r with
  | Ok a => k a
  | Raise e => Raise e
  end.

(** [str(i)] for a Python int. *)
Definition str_int (i : Z) : string := NilEmpty.string_of_int (Z.to_int i).

(** *** dict: insertion-ordered, keys are strings *)

Section Dict.
Context {V : Type}.

Definition dict : Type := list (string * V).

(** [d[k]] / [d.get(k)] *)
Fixpoint dict_get (d : dict) (k : string) : option V :=
  match d with
  | [] => None
  | (k', v) :: d' => if String.eqb k k' then Some v else dict_get d' k
  end.

(** [k in d] *)
Definition dict_mem (d : dict) (k : string) : bool :=
  match dict_get d k with Some _ => true | None => false end.

(** [d[k] = v]: an existing key keeps its position, a new one goes last. *)
Fixpoint dict_set (d : dict) (k : string) (v : V) : dict :=
  match d with
  | [] => [(k, v)]
  | (k', v') :: d' =>
      if String.eqb k k' then (k', v) :: d' else (k', v') :: dict_set d' k v
  end.

(** the dict left by [d.pop(k)] *)
Fixpoint dict_remove (d : dict) (k : string) : dict :=
  match d with
  | [] => []
  | (k', v') :: d' =>
      if String.eqb k k' then d' else (k', v') :: dict_remove d' k
  end.

(** [d.copy()]: a new dict with the same items (the values are shared). *)
Definition dict_copy (d : dict) : dict := d.

Definition dict_keys (d : dict) : list string := map fst d.
End Dict.
Arguments dict V : clear implicits.

(** *** The heap of dict objects

    Records are passed by reference: a document is a location, and
    [d.copy()] allocates.  A location outside the heap cannot arise in
    Python; [deref] reads it as the empty dict so that the model is total. *)

Definition loc : Type := nat.

Section Heap.
Context {V : Type}.

Definition heap : Type := list (dict V).

Definition deref (h : heap) (l : loc) : dict V := nth l h [].

Fixpoint heap_write (h : heap) (l : loc) (d : dict V) : heap :=
  match h, l with
  | [], _ => []
  | _ :: h', O => d :: h'
  | x :: h', S l' => x :: heap_write h' l' d
  end.

Definition heap_alloc (h : heap) (d : dict V) : loc * heap :=
  (List.length h, (h ++ [d])%list).
End Heap.
Arguments heap V : clear implicits.

End Py.

(** ** The writer: [__get_h_table__] and [save_to_hbase] *)

Module Writer.
Import Py.

(** The selector of a column-family mapping entry: the string ["all"], a
    list of field names, or any other object. *)
Inductive selector : Type :=
| SelAll
| SelFields (fields : list string)
| SelOther.

Definition cf_mapping : Type := list (string * selector).

(** No entry has a selector that is neither ["all"] nor a list. *)
Definition valid_mapping (m : cf_mapping) : Prop :=
  Forall (fun e => snd e <> SelOther) m.

(** The calls made on the happybase connection, table and batch, in order. *)
Inductive hb_call : Type :=
| CreateTable (name : string) (families : dict unit)
| OpenTable (name : string)
| NewBatch (batch_size : Z)
| BatchPut (row : string) (values : dict string)
| BatchSend.

Definition is_batch_write (c : hb_call) : bool :=
  match c with
  | BatchPut _ _ | BatchSend => true
  | _ => false
  end.

Definition put_row (c : hb_call) : option string :=
  match c with
  | BatchPut row _ => Some row
  | _ => None
  end.

(** [raise Exception("Column mapping must be a list of fields or 'all'")] *)
Definition invalid_mapping : exn :=
  MkExn "Exception" "Column mapping must be a list of fields or 'all'".

(** What [table.batch] raises for a batch size that is not positive. *)
Definition batch_size_error : exn :=
  MkExn "ValueError" "'batch_size' must be > 0".

Definition already_exists_class : string :=
  "<class 'Hbase_thrift.AlreadyExists'>".

(** [f"{cf}:{c}"] *)
Definition column_id (cf c : string) : string := (cf ++ ":" ++ c)%string.

(** [f"{uid}~{row_auto}"] *)
Definition auto_row (uid : string) (row_auto : Z) : string :=
  (uid ++ "~" ++ str_int row_auto)%string.

(** [{cf: {} for cf, _ in cf_mapping}] *)
Definition families (m : cf_mapping) : dict unit :=
  fold_left (fun acc e => dict_set acc (fst e) tt) m [].

(** An entry with selector [sel] emits the field [c] when the record has it. *)
Definition selects (sel : selector) (c : string) : Prop :=
  match sel with
  | SelAll => True
  | SelFields fields => In c fields
  | SelOther => False
  end.

(** The name holds no colon. *)
Definition no_colon (s : string) : Prop :=
  ~ In ":"%char (list_ascii_of_string s).

Section WithValues.
(** Field values and their [str()]. *)
Variable V : Type.
Variable py_str : V -> string.
(** What [hbase.create_table(name, cf)] does on the store: [None] when it
    returns, [Some e] when it raises [e]. *)
Variable create_table : string -> dict unit -> option exn.

(** Everything the writer can change: the heap of records, the calls made
    on the client so far, and what was printed. *)
Record world : Type := MkWorld {
  w_heap : heap V;
  w_calls : list hb_call;
  w_stdout : list string
}.

Definition call (c : hb_call) (w : world) : world :=
  MkWorld (w_heap w) (w_calls w ++ [c]) (w_stdout w).

Definition print (s : string) (w : world) : world :=
  MkWorld (w_heap w) (w_calls w) (w_stdout w ++ [s]).

Definition set_heap (h : heap V) (w : world) : world :=
  MkWorld h (w_calls w) (w_stdout w).

(** [__get_h_table__(hbase, table_name, cf)] (lines 31-40).  The handle
    returned by [hbase.table(table_name)] is identified with the table
    name. *)
Definition __get_h_table__ (table_name : string) (cf : option (dict unit))
    (w : world) : world * result string :=
  let cf :=
    match cf with
    | None | Some [] => [("cf"%string, tt)]
    | Some cf => cf
    end in
  let w := call (CreateTable table_name cf) w in
  let w :=
    match create_table table_name cf with
    | None => w
    | Some e =>
        if String.eqb (class_str e) already_exists_class then w
        else print (exn_msg e) w
    end in
  (call (OpenTable table_name) w, Ok table_name).

(** [[str(d_.pop(f)) if f in d_ else "" for f in row_fields]] (line 68):
    the segments of the row key, popping each field found from the dict at
    [d_]. *)
Fixpoint pop_row_fields (h : heap V) (d_ : loc) (row_fields : list string)
    : heap V * list string :=
  match row_fields with
  | [] => (h, [])
  | f :: fs =>
      match dict_get (deref h d_) f with
      | Some v =>
          let h := heap_write h d_ (dict_remove (deref h d_) f) in
          let (h, segs) := pop_row_fields h d_ fs in
          (h, py_str v :: segs)
      | None =>
          let (h, segs) := pop_row_fields h d_ fs in
          (h, ""%string :: segs)
      end
  end.

(** [for c, v in d_.items(): values[f"{cf}:{c}"] = str(v)] (lines 72-73) *)
Definition put_all (cf : string) (d_ : dict V) (values : dict string)
    : dict string :=
  fold_left (fun vals cv => dict_set vals (column_id cf (fst cv)) (py_str (snd cv)))
            d_ values.

(** [for c in fields: if c in d_: values[f"{cf}:{c}"] = str(d_[c])]
    (lines 75-77) *)
Definition put_fields (cf : string) (fields : list string) (d_ : dict V)
    (values : dict string) : dict string :=
  fold_left (fun vals c =>
               match dict_get d_ c with
               | Some v => dict_set vals (column_id cf c) (py_str v)
               | None => vals
               end)
            fields values.

(** [for cf, fields in cf_mapping: ...] (lines 70-79), reading the working
    copy through its reference at every entry. *)
Fixpoint build_values (h : heap V) (d_ : loc) (m : cf_mapping)
    (values : dict string) : result (dict string) :=
  match m with
  | [] => Ok values
  | (cf, SelAll) :: m' =>
      build_values h d_ m' (put_all cf (deref h d_) values)
  | (cf, SelFields fields) :: m' =>
      build_values h d_ m' (put_fields cf fields (deref h d_) values)
  | (cf, SelOther) :: m' => Raise invalid_mapping
  end.

(** [not row_fields] *)
Definition auto_mode (row_fields : option (list string)) : bool :=
  match row_fields with
  | None | Some [] => true
  | Some (_ :: _) => false
  end.

Definition fields_of (row_fields : option (list string)) : list string :=
  match row_fields with
  | Some fs => fs
  | None => []
  end.

(** The body of [for d in documents] (lines 63-80), from the state
    [(w, row_auto)]. *)
Definition save_document (uid : string) (m : cf_mapping)
    (row_fields : option (list string)) (w : world) (row_auto : Z) (d : loc)
    : world * Z * result unit :=
  let (d_, h) := heap_alloc (w_heap w) (dict_copy (deref (w_heap w) d)) in
  let '(h, row, row_auto) :=
    if auto_mode row_fields then (h, auto_row uid row_auto, row_auto + 1)
    else
      let (h, segs) := pop_row_fields h d_ (fields_of row_fields) in
      (h, String.concat "~" segs, row_auto) in
  let w := set_heap h w in
  match build_values h d_ m [] with
  | Raise e => (w, row_auto, Raise e)
  | Ok values => (call (BatchPut row values) w, row_auto, Ok tt)
  end.

Fixpoint save_documents (uid : string) (m : cf_mapping)
    (row_fields : option (list string)) (documents : list loc)
    (w : world) (row_auto : Z) : world * result unit :=
  match documents with
  | [] => (w, Ok tt)
  | d :: ds =>
      match save_document uid m row_fields w row_auto d with
      | (w, row_auto, Ok _) => save_documents uid m row_fields ds w row_auto
      | (w, _, Raise e) => (w, Raise e)
      end
  end.

(** [table.batch(batch_size=batch_size)] (line 59): the client refuses a
    size that is not positive. *)
Definition new_batch (batch_size : Z) (w : world) : world * result unit :=
  let w := call (NewBatch batch_size) w in
  if batch_size <=? 0 then (w, Raise batch_size_error) else (w, Ok tt).

(** [save_to_hbase(documents, h_table_name, hbase_conf, cf_mapping,
    row_fields, batch_size)] (lines 57-81).  [uid] is the value of
    [uuid.uuid4()] in this call; [hbase_conf] only opens the connection. *)
Definition save_to_hbase (uid : string) (documents : list loc)
    (h_table_name : string) (m : cf_mapping)
    (row_fields : option (list string)) (batch_size : Z) (w : world)
    : world * result unit :=
  match __get_h_table__ h_table_name (Some (families m)) w with
  | (w, Raise e) => (w, Raise e)
  | (w, Ok _) =>
      match new_batch batch_size w with
      | (w, Raise e) => (w, Raise e)
      | (w, Ok _) =>
          match save_documents uid m row_fields documents w 0 with
          | (w, Raise e) => (w, Raise e)
          | (w, Ok _) => (call BatchSend w, Ok tt)
          end
      end
  end.



(** The row keys put into the batch, in call order. *)
Definition rows_put (w : world) : list string :=
  flat_map (fun c => match put_row c with Some r => [r] | None => [] end)
           (w_calls w).

(** The column maps put into the batch, in call order. *)
Definition values_put (w : world) : list (dict string) :=
  flat_map (fun c => match c with BatchPut _ v => [v] | _ => [] end)
           (w_calls w).
End WithValues.

Arguments w_heap {V} w.
Arguments w_calls {V} w.
Arguments w_stdout {V} w.
Arguments MkWorld {V} _ _ _.

(** A concrete value type for records: ints, strings, booleans and None. *)
Inductive pyval : Type :=
| PyInt (i : Z)
| PyStr (s : string)
| PyBool (b : bool)
| PyNone.

Definition pyval_str (v : pyval) : string :=
  match v with
  | PyInt i => str_int i
  | PyStr s => s
  | PyBool true => "True"
  | PyBool false => "False"
  | PyNone => "None"
  end.

End Writer.

(** ** Sessions of the writer used as examples *)

Module WriterExamples.
Import Py Writer.
Local Open Scope string_scope.

Definition created : string -> dict unit -> option exn := fun _ _ => None.

Definition record_xy : dict pyval := [("x", PyInt 1); ("y", PyInt 2)].

Definition one_record : world pyval := MkWorld [record_xy] [] [].

Definition a_x_b_all : cf_mapping := [("a", SelFields ["x"]); ("b", SelAll)].

Definition io_error : exn := MkExn "Hbase_thrift.IOError" "IOError(message=...)".
End WriterExamples.

(** ** The cursor: [get_hbase_data_batch] *)

Module Cursor.
Import Py.

(** A Python [str] as its sequence of code points.  Row keys are stored as
    bytes and decoded by the code; they are taken here in decoded form, and
    the store's byte order on UTF-8 keys is the code-point order. *)
Definition str : Type := list Z.

Definition of_string (s : string) : str :=
  map (fun a => Z.of_N (N_of_ascii a)) (list_ascii_of_string s).

Definition max_code_point : Z := 1114111.

Definition value_error : exn :=
  MkExn "ValueError" "chr() arg not in range(0x110000)".

Definition index_error : exn :=
  MkExn "IndexError" "string index out of range".

(** [chr(i)] *)
Definition chr (i : Z) : result Z :=
  if (0 <=? i) && (i <=? max_code_point) then Ok i else Raise value_error.

(** [ord(c)] *)
Definition ord (c : Z) : Z := c.

(** [s[:-1] + chr(ord(s[-1]) + 1)] (lines 110 and 141) *)
Definition incr_last (s : str) : result str :=
  match rev s with
  | [] => Raise index_error
  | c :: r => bind (chr (ord c + 1)) (fun c' => Ok (rev r ++ [c'])%list)
  end.

(** A key whose last code point can be incremented. *)
Definition incrementable (k : str) : Prop := exists k', incr_last k = Ok k'.

(** A surrogate code point (U+D800 to U+DFFF): a [str] can hold one, UTF-8
    cannot encode it. *)
Definition is_surrogate (c : Z) : bool := (55296 <=? c) && (c <=? 57343).

(** [s.encode()] returns: no code point of [s] is a surrogate. *)
Definition encodable (s : str) : bool :=
  forallb (fun c => negb (is_surrogate c)) s.

(** An optional scan bound that the client can send. *)
Definition bound_encodable (b : option str) : bool :=
  match b with
  | Some s => encodable s
  | None => true
  end.

(** What [s.encode()] raises otherwise. *)
Definition encode_error : exn :=
  MkExn "UnicodeEncodeError" "'utf-8' codec can't encode: surrogates not allowed".

(** A key from which the next start bound can be computed and sent: its
    last code point can be incremented and the result encoded. *)
Definition advanceable (k : str) : Prop :=
  exists k', incr_last k = Ok k' /\ encodable k' = true.

(** The largest value of a Thrift i32 field. *)
Definition max_i32 : Z := 2147483647.

(** What the Thrift layer raises for a size that does not fit an i32. *)
Definition i32_error : exn :=
  MkExn "struct.error" "'i' format requires -2147483648 <= number <= 2147483647".

(** Lexicographic comparison of keys. *)
Fixpoint str_compare (a b : str) : comparison :=
  match a, b with
  | [], [] => Eq
  | [], _ :: _ => Lt
  | _ :: _, [] => Gt
  | x :: a', y :: b' =>
      match x ?= y with
      | Eq => str_compare a' b'
      | c => c
      end
  end.

Definition str_leb (a b : str) : bool :=
  match str_compare a b with Gt => false | _ => true end.

Definition str_ltb (a b : str) : bool :=
  match str_compare a b with Lt => true | _ => false end.

(** [row_start <= key < row_stop], an absent bound being no bound. *)
Definition in_range (row_start row_stop : option str) (key : str) : bool :=
  match row_start with Some s => str_leb s key | None => true end
  && match row_stop with Some e => str_ltb key e | None => true end.

Section WithColumns.
(** The columns of a scanned row. *)
Variable C : Type.

Definition row : Type := (str * C)%type.

(** [data[-1][0].decode()] for a non-empty [data] *)
Definition last_key (data : list row) : str := last (map fst data) [].

(** The scan primitive on a table holding [store], with the options that
    are passed through unchanged (columns, filter, timestamp, ...) fixed
    and [reverse] at its default.  The client refuses sizes below one; the
    request it then sends carries the bounds as UTF-8 and the batch size
    as an i32, and raises when a bound cannot be encoded or the batch size
    does not fit; the store returns the first [limit] rows of the range. *)
Definition store_scan (store : list row) (row_start row_stop : option str)
    (batch_size limit : Z) : result (list row) :=
  if batch_size <? 1 then Raise (MkExn "ValueError" "'batch_size' must be >= 1")
  else if limit <? 1 then Raise (MkExn "ValueError" "'limit' must be >= 1")
  else if negb (bound_encodable row_start && bound_encodable row_stop)
  then Raise encode_error
  else if max_i32 <? batch_size then Raise i32_error
  else Ok (firstn (Z.to_nat limit)
                  (filter (fun r => in_range row_start row_stop (fst r)) store)).

(** [table.scan(row_start=..., row_stop=..., batch_size=..., limit=...)]
    as a list, or the exception it raises. *)
Variable scan : option str -> option str -> Z -> Z -> result (list row).

(** The store returns at most the number of rows asked for. *)
Definition scan_respects_limit : Prop :=
  forall start stop size lim data,
    scan start stop size lim = Ok data ->
    Z.of_nat (List.length data) <= Z.max 0 lim.

(** The state carried between rounds. *)
Record cursor : Type := MkCursor {
  row_start : option str;
  row_stop : option str;
  current_limit : Z;
  current_register : Z
}.

(** The bounds of a cursor can be sent. *)
Definition bounds_encodable (c : cursor) : Prop :=
  bound_encodable (row_start c) = true /\ bound_encodable (row_stop c) = true.

(** The rows of the table still inside the cursor's bounds. *)
Definition remaining (store : list row) (c : cursor) : nat :=
  List.length (filter (fun r => in_range (row_start c) (row_stop c) (fst r)) store).

(** The rows of a table come in strictly increasing key order. *)
Definition key_lt (a b : row) : Prop := str_ltb (fst a) (fst b) = true.

Definition key_sorted (store : list row) : Prop := StronglySorted key_lt store.

(** No key of the table is another key of the table followed by more
    code points. *)
Definition no_key_extends (store : list row) : Prop :=
  forall a b s, In a store -> In b store -> fst b = (fst a ++ s)%list -> s = [].

(** How the generator ends. *)
Inductive stop : Type :=
| Exhausted
| SingleRowTerminal
| LimitReached
| Raised (e : exn).

Definition normal (s : stop) : Prop :=
  match s with Raised _ => False | _ => True end.

(** One pass through the body of [while True]. *)
Inductive round_result : Type :=
| Continue (data : list row) (c : cursor)
| Finish (yielded : option (list row)) (s : stop).

(** [if limit:] *)
Definition limit_set (limit : option Z) : option Z :=
  match limit with
  | Some l => if l =? 0 then None else Some l
  | None => None
  end.

(** Lines 108-110: the bounds of the scan. *)
Definition scan_bounds (row_start row_stop row_prefix : option str)
    : result (option str * option str) :=
  match row_prefix with
  | None | Some [] => Ok (row_start, row_stop)
  | Some p => bind (incr_last p) (fun q => Ok (Some p, Some q))
  end.

(** The bounds of the scan can be computed and sent. *)
Definition sendable_bounds (row_start row_stop row_prefix : option str) : Prop :=
  exists s0 e0,
    scan_bounds row_start row_stop row_prefix = Ok (s0, e0) /\
    bound_encodable s0 = true /\ bound_encodable e0 = true.

(** Lines 112-118: the size of the first round. *)
Definition first_limit (batch_size : Z) (limit : option Z) : Z :=
  match limit_set limit with
  | Some l => if l >? batch_size then batch_size else l
  | None => batch_size
  end.

(** The cursor before the first round (lines 108-119). *)
Definition init_cursor (row_start row_stop row_prefix : option str)
    (batch_size : Z) (limit : option Z) : result cursor :=
  bind (scan_bounds row_start row_stop row_prefix)
       (fun bounds =>
          Ok (MkCursor (fst bounds) (snd bounds) (first_limit batch_size limit) 0)).

(** Lines 121-141. *)
Definition round (batch_size : Z) (limit : option Z) (c : cursor)
    : round_result :=
  match scan (row_start c) (row_stop c) batch_size (current_limit c) with
  | Raise e => Finish None (Raised e)
  | Ok [] => Finish None Exhausted
  | Ok data =>
      if Z.of_nat (List.length data) <=? 1 then Finish (Some data) SingleRowTerminal
      else
        let last_record := last_key data in
        let current_register := current_register c + Z.of_nat (List.length data) in
        let next current_limit :=
          match incr_last last_record with
          | Raise e => Finish (Some data) (Raised e)
          | Ok row_start =>
              Continue data
                (MkCursor (Some row_start) (row_stop c) current_limit current_register)
          end in
        match limit_set limit with
        | Some l =>
            if current_register >=? l then Finish (Some data) LimitReached
            else next (Z.min batch_size (l - current_register))
        | None => next (current_limit c)
        end
  end.

(** What a round asked of the store and what it yielded. *)
Record round_log : Type := MkLog {
  req_start : option str;
  req_stop : option str;
  req_limit : Z;
  batch : option (list row)
}.

Definition log_of (c : cursor) (yielded : option (list row)) : round_log :=
  MkLog (row_start c) (row_stop c) (current_limit c) yielded.

(** The generator driven for at most [fuel] rounds: the rounds made, and
    how it ended if it did. *)
Fixpoint run (fuel : nat) (batch_size : Z) (limit : option Z) (c : cursor)
    : list round_log * option stop :=
  match fuel with
  | O => ([], None)
  | S fuel =>
      match round batch_size limit c with
      | Finish yielded s => ([log_of c yielded], Some s)
      | Continue data c' =>
          let (logs, s) := run fuel batch_size limit c' in
          (log_of c (Some data) :: logs, s)
      end
  end.

Definition get_hbase_data_batch (fuel : nat)
    (row_start row_stop row_prefix : option str) (batch_size : Z)
    (limit : option Z) : list round_log * option stop :=
  match init_cursor row_start row_stop row_prefix batch_size limit with
  | Raise e => ([], Some (Raised e))
  | Ok c => run fuel batch_size limit c
  end.

(** The batches yielded, in order. *)
Definition batches (logs : list round_log) : list (list row) :=
  flat_map (fun l => match batch l with Some b => [b] | None => [] end) logs.

(** The number of rows yielded. *)
Definition rows_yielded (logs : list round_log) : Z :=
  fold_right (fun b n => Z.of_nat (List.length b) + n) 0 (batches logs).
End WithColumns.

Arguments Continue {C} data c.
Arguments Finish {C} yielded s.
Arguments MkLog {C} _ _ _ _.
Arguments req_start {C} r.
Arguments req_stop {C} r.
Arguments req_limit {C} r.
Arguments batch {C} r.
Arguments batches {C} logs.
Arguments rows_yielded {C} logs.
Arguments last_key {C} data.

End Cursor.

(** ** Tables used as examples *)

Module CursorExamples.
Import Py Cursor.
Local Open Scope string_scope.

(** A table with the given keys and no column data. *)
Definition table (keys : list string) : list (row unit) :=
  map (fun k => (of_string k, tt)) keys.

Definition k1_to_k5 : list (row unit) := table ["k1"; "k2"; "k3"; "k4"; "k5"].

Definition users : list (row unit) :=
  table ["user:8"; "user:9"; "user:9abc"; "user:a"].

(** 200 rows, in key order. *)
Definition two_hundred_rows : list (row unit) :=
  map (fun i => ([107; 1000 + Z.of_nat i], tt)) (seq 0 200).

(** A table where one key extends another. *)
Definition k2_extended : list (row unit) := table ["k1"; "k2"; "k2a"; "k3"].

(** A table whose last key ends in U+10FFFF. *)
Definition top_code_point : list (row unit) :=
  [([97], tt); ([98; max_code_point], tt)].

(** A table with a key that ends in U+D7FF, the code point before the
    surrogates. *)
Definition below_surrogates : list (row unit) :=
  [([97], tt); ([98; 55295], tt); ([99], tt)].
End CursorExamples.

(** * Properties *)

Local Open Scope string_scope.
Local Open Scope Z_scope.
Local Open Scope list_scope.

(** ** Strings and dicts *)

Section DictFacts.
Import Py.
Context {V : Type}.
Implicit Types (d : dict V) (k : string) (v : V).

Lemma dict_get_set_same d k v : dict_get (dict_set d k v) k = Some v.
Proof.
  induction d as [|[k' v'] d IH]; simpl.
  - now rewrite String.eqb_refl.
  - destruct (String.eqb k k') eqn:E; simpl; rewrite E; auto.
Qed.

Lemma dict_get_set_other d k k' v :
  k' <> k -> dict_get (dict_set d k v) k' = dict_get d k'.
Proof.
  intros Hne. induction d as [|[k0 v0] d IH]; simpl.
  - apply String.eqb_neq in Hne. now rewrite Hne.
  - destruct (String.eqb k k0) eqn:E; simpl.
    + apply String.eqb_eq in E; subst k0.
      apply String.eqb_neq in Hne. now rewrite Hne.
    + now rewrite IH.
Qed.

Lemma dict_get_absent d k : ~ In k (dict_keys d) -> dict_get d k = None.
Proof.
  induction d as [|[k' v'] d IH]; simpl; intros Hn; auto.
  destruct (String.eqb k k') eqn:E.
  - apply String.eqb_eq in E. subst. tauto.
  - apply IH. tauto.
Qed.
End DictFacts.

Lemma string_app_inv_head (p a b : string) :
  (p ++ a)%string = (p ++ b)%string -> a = b.
Proof.
  induction p as [|c p IH]; simpl; intros H; auto.
  injection H as H. auto.
Qed.

Lemma column_id_inj cf c c' :
  Writer.column_id cf c = Writer.column_id cf c' -> c = c'.
Proof.
  unfold Writer.column_id. intros H.
  apply string_app_inv_head in H. now apply string_app_inv_head in H.
Qed.

Lemma str_int_inj i j : Py.str_int i = Py.str_int j -> i = j.
Proof.
  unfold Py.str_int. intros H.
  apply DecimalZ.to_int_inj.
  assert (E : Some (Z.to_int i) = Some (Z.to_int j)).
  { rewrite <- !NilEmpty.isi. now rewrite H. }
  now injection E.
Qed.

Lemma auto_row_inj uid i j : Writer.auto_row uid i = Writer.auto_row uid j -> i = j.
Proof.
  unfold Writer.auto_row. intros H.
  apply string_app_inv_head in H. apply string_app_inv_head in H.
  now apply str_int_inj.
Qed.

(** ** The heap *)

Section HeapFacts.
Import Py.
Context {V : Type}.
Implicit Types (h : heap V) (d : dict V).

Lemma deref_app_old h t l : (l < List.length h)%nat -> deref (h ++ t) l = deref h l.
Proof. intros Hl. unfold deref. now apply app_nth1. Qed.

Lemma deref_fresh h d t : deref (h ++ d :: t) (List.length h) = d.
Proof. unfold deref. rewrite app_nth2, Nat.sub_diag by lia. reflexivity. Qed.

Lemma heap_write_fresh h d d' t :
  heap_write (h ++ d :: t) (List.length h) d' = h ++ d' :: t.
Proof. induction h as [|x h IH]; simpl; [reflexivity | now rewrite IH]. Qed.
End HeapFacts.

(** ** The writer *)

Section WriterFacts.
Import Py Writer.
Variable V : Type.
Variable py_str : V -> string.

Lemma put_all_get cf (d : dict V) : forall values c,
  NoDup (dict_keys d) ->
  dict_get (put_all V py_str cf d values) (column_id cf c) =
  match dict_get d c with
  | Some v => Some (py_str v)
  | None => dict_get values (column_id cf c)
  end.
Proof.
  unfold put_all.
  induction d as [|[k v] d IH]; simpl; intros values c Hnd; auto.
  inversion Hnd as [|? ? Hk Hd]; subst.
  rewrite IH by assumption. simpl.
  destruct (String.eqb c k) eqn:E.
  - apply String.eqb_eq in E; subst c.
    rewrite (dict_get_absent d k Hk). apply dict_get_set_same.
  - destruct (dict_get d c); auto.
    apply dict_get_set_other. intros Heq. apply column_id_inj in Heq.
    subst. now rewrite String.eqb_refl in E.
Qed.

Lemma build_values_app h d_ pre : forall post values,
  valid_mapping pre ->
  exists values',
    build_values V py_str h d_ (pre ++ post) values =
    build_values V py_str h d_ post values'.
Proof.
  induction pre as [|[cf sel] pre IH]; simpl; intros post values Hv.
  - now exists values.
  - inversion Hv as [|? ? Hsel Hpre]; subst. simpl in Hsel.
    destruct sel; try congruence; apply IH; assumption.
Qed.

Lemma build_values_valid h d_ m : forall values,
  valid_mapping m -> exists values', build_values V py_str h d_ m values = Ok values'.
Proof.
  intros values Hv.
  destruct (build_values_app h d_ m [] values Hv) as [values' E].
  rewrite app_nil_r in E. exists values'. exact E.
Qed.

Lemma build_values_invalid h d_ m : forall values,
  In SelOther (map snd m) ->
  build_values V py_str h d_ m values = Raise invalid_mapping.
Proof.
  induction m as [|[cf sel] m IH]; simpl; intros values Hin; [tauto|].
  destruct sel; auto; destruct Hin as [Hin|Hin]; try discriminate; auto.
Qed.

Lemma pop_row_fields_fresh fs : forall (h : heap V) d,
  exists d' segs,
    pop_row_fields V py_str (h ++ [d]) (List.length h) fs = (h ++ [d'], segs).
Proof.
  induction fs as [|f fs IH]; simpl; intros h d.
  - now exists d, [].
  - rewrite deref_fresh. destruct (dict_get d f) as [v|].
    + rewrite heap_write_fresh.
      destruct (IH h (dict_remove d f)) as (d' & segs & E). rewrite E.
      now exists d', (py_str v :: segs).
    + destruct (IH h d) as (d' & segs & E). rewrite E.
      now exists d', ("" :: segs).
Qed.
End WriterFacts.

Section WriterSteps.
Import Py Writer.
Variable V : Type.
Variable py_str : V -> string.
Variable create_table : string -> dict unit -> option exn.
Implicit Types (w : world V) (m : cf_mapping).

(** One record: a working copy is allocated after the existing objects,
    only it is written, and the row is put unless the mapping raises. *)
Lemma save_document_spec uid m row_fields w row_auto d :
  exists d' row row_auto',
    (auto_mode row_fields = true ->
       row = auto_row uid row_auto /\ row_auto' = row_auto + 1 /\
       d' = deref (w_heap w) d) /\
    save_document V py_str uid m row_fields w row_auto d =
    let w1 := set_heap V (w_heap w ++ [d']) w in
    match build_values V py_str (w_heap w ++ [d']) (List.length (w_heap w)) m [] with
    | Raise e => (w1, row_auto', Raise e)
    | Ok values => (call V (BatchPut row values) w1, row_auto', Ok tt)
    end.
Proof.
  unfold save_document, heap_alloc, dict_copy.
  destruct (auto_mode row_fields) eqn:Hauto.
  - exists (deref (w_heap w) d), (auto_row uid row_auto), (row_auto + 1).
    split; [auto|]. reflexivity.
  - destruct (pop_row_fields_fresh V py_str (fields_of row_fields) (w_heap w)
                (deref (w_heap w) d)) as (d' & segs & E).
    rewrite E. exists d', (String.concat "~" segs), row_auto.
    split; [discriminate|]. reflexivity.
Qed.

Lemma rows_put_call w c :
  rows_put V (call V c w) =
  rows_put V w ++ match put_row c with Some r => [r] | None => [] end.
Proof. unfold rows_put, call; simpl. rewrite flat_map_app; simpl. now rewrite app_nil_r. Qed.

(** The loop leaves the objects that existed before it untouched. *)
Lemma save_documents_frame uid m row_fields documents : forall w row_auto,
  exists fresh,
    w_heap (fst (save_documents V py_str uid m row_fields documents w row_auto)) =
    w_heap w ++ fresh.
Proof.
  induction documents as [|d ds IH]; simpl; intros w row_auto.
  - exists []. now rewrite app_nil_r.
  - destruct (save_document_spec uid m row_fields w row_auto d)
      as (d' & row & n' & _ & E).
    rewrite E; clear E. cbv zeta.
    destruct (build_values V py_str _ _ m []) as [values|e].
    + match goal with |- context [save_documents _ _ _ _ _ _ ?w1 ?n] =>
        destruct (IH w1 n) as [fresh Hf] end.
      rewrite Hf. simpl. exists (d' :: fresh). now rewrite <- app_assoc.
    + simpl. now exists [d'].
Qed.

(** With an entry that is neither ["all"] nor a list, the first record
    raises before anything is put. *)
Lemma save_documents_invalid uid m row_fields d ds w row_auto :
  In SelOther (map snd m) ->
  exists w',
    save_documents V py_str uid m row_fields (d :: ds) w row_auto =
    (w', Raise invalid_mapping) /\
    w_calls w' = w_calls w /\ w_stdout w' = w_stdout w.
Proof.
  intros Hin. simpl.
  destruct (save_document_spec uid m row_fields w row_auto d)
    as (d' & row & n' & _ & E).
  rewrite E; clear E. cbv zeta.
  rewrite (build_values_invalid V py_str _ _ m [] Hin).
  eexists; split; [reflexivity|]. split; reflexivity.
Qed.

(** Auto mode with a well-formed mapping: record [i] is put under
    [uid~(row_auto + i)]. *)
Lemma save_documents_auto uid m row_fields documents : forall w row_auto,
  auto_mode row_fields = true -> valid_mapping m ->
  exists w',
    save_documents V py_str uid m row_fields documents w row_auto = (w', Ok tt) /\
    rows_put V w' =
    rows_put V w ++
    map (fun i => auto_row uid (row_auto + Z.of_nat i)) (seq 0 (List.length documents)).
Proof.
  intros w row_auto Hauto Hvalid. revert w row_auto.
  induction documents as [|d ds IH]; simpl; intros w row_auto.
  - exists w. split; [reflexivity|]. now rewrite app_nil_r.
  - destruct (save_document_spec uid m row_fields w row_auto d)
      as (d' & row & n' & Hrow & E).
    destruct (Hrow Hauto) as (-> & -> & _).
    rewrite E; clear E. cbv zeta.
    destruct (build_values_valid V py_str (w_heap w ++ [d']) (List.length (w_heap w))
                m [] Hvalid) as [values Hb].
    rewrite Hb.
    match goal with |- context [save_documents _ _ _ _ _ _ ?w1 ?n] =>
      destruct (IH w1 n) as (w' & Hrun & Hrows) end.
    exists w'. split; [exact Hrun|].
    rewrite Hrows, rows_put_call. simpl.
    unfold rows_put at 1. simpl. fold (rows_put V w).
    rewrite <- app_assoc. simpl. rewrite Z.add_0_r.
    do 2 f_equal. rewrite <- seq_shift, map_map.
    apply map_ext. intros i. f_equal. lia.
Qed.

(** The loop makes no call but puts. *)
Lemma save_documents_calls uid m row_fields documents : forall w row_auto,
  exists puts,
    w_calls (fst (save_documents V py_str uid m row_fields documents w row_auto)) =
    w_calls w ++ puts /\
    Forall (fun c => put_row c <> None) puts.
Proof.
  induction documents as [|d ds IH]; simpl; intros w row_auto.
  - exists []. now rewrite app_nil_r.
  - destruct (save_document_spec uid m row_fields w row_auto d)
      as (d' & row & n' & _ & E).
    rewrite E; clear E. cbv zeta.
    destruct (build_values V py_str _ _ m []) as [values|e].
    + match goal with |- context [save_documents _ _ _ _ _ _ ?w1 ?n] =>
        destruct (IH w1 n) as (puts & Hc & Hp) end.
      exists (BatchPut row values :: puts). rewrite Hc. simpl.
      split; [now rewrite <- app_assoc|]. constructor; [discriminate|exact Hp].
    + simpl. exists []. now rewrite app_nil_r.
Qed.

(** A positive batch size opens the batch; any other is refused. *)
Lemma new_batch_positive batch_size w :
  0 < batch_size ->
  new_batch V batch_size w = (call V (NewBatch batch_size) w, Ok tt).
Proof.
  intros H. unfold new_batch. destruct (batch_size <=? 0) eqn:E; [|reflexivity].
  apply Z.leb_le in E. lia.
Qed.

Lemma new_batch_refused batch_size w :
  batch_size <= 0 ->
  new_batch V batch_size w = (call V (NewBatch batch_size) w, Raise batch_size_error).
Proof.
  intros H. unfold new_batch. destruct (batch_size <=? 0) eqn:E; [reflexivity|].
  apply Z.leb_gt in E. lia.
Qed.

(** A mapping is well formed or has an entry that is neither ["all"] nor a
    list. *)
Lemma mapping_valid_or_not m : valid_mapping m \/ In SelOther (map snd m).
Proof.
  induction m as [|[cf sel] m [IH|IH]]; simpl.
  - left. constructor.
  - destruct sel; [left|left|right; auto]; constructor; auto; discriminate.
  - right. auto.
Qed.

(** Auto mode, whatever the mapping: the loop puts the first [written]
    records under consecutive sequence numbers, and all of them when it
    returns. *)
Lemma save_documents_auto_any uid m row_fields documents w row_auto :
  auto_mode row_fields = true ->
  exists written,
    rows_put V (fst (save_documents V py_str uid m row_fields documents w row_auto)) =
    rows_put V w ++
    map (fun i => auto_row uid (row_auto + Z.of_nat i)) (seq 0 written) /\
    (snd (save_documents V py_str uid m row_fields documents w row_auto) = Ok tt ->
     written = List.length documents) /\
    (valid_mapping m ->
     snd (save_documents V py_str uid m row_fields documents w row_auto) = Ok tt).
Proof.
  intros Hauto. destruct (mapping_valid_or_not m) as [Hvalid|Hin].
  - destruct (save_documents_auto uid m row_fields documents w row_auto Hauto Hvalid)
      as (w' & E & Hrows).
    exists (List.length documents). rewrite E. cbn [fst snd]. auto.
  - destruct documents as [|d ds].
    + exists 0%nat. cbn [save_documents fst snd map seq List.length].
      rewrite app_nil_r. auto.
    + destruct (save_documents_invalid uid m row_fields d ds w row_auto Hin)
        as (w' & E & Hcalls & _).
      exists 0%nat. rewrite E. cbn [fst snd map seq].
      unfold rows_put. rewrite Hcalls, app_nil_r.
      split; [reflexivity|]. split; [discriminate|].
      intros Hvalid. exfalso. unfold valid_mapping in Hvalid.
      rewrite Forall_forall in Hvalid. apply in_map_iff in Hin.
      destruct Hin as (e & He & Hine). exact (Hvalid e Hine He).
Qed.

(** Table acquisition returns the handle whatever [create_table] did. *)
Lemma get_h_table_spec table_name cf w :
  exists cfs out,
    __get_h_table__ V create_table table_name cf w =
    (MkWorld (w_heap w)
             (w_calls w ++ [CreateTable table_name cfs; OpenTable table_name])
             (w_stdout w ++ out),
     Ok table_name).
Proof.
  unfold __get_h_table__. eexists.
  destruct (create_table table_name _) as [e|].
  - destruct (String.eqb (class_str e) already_exists_class).
    + exists []. unfold call; simpl. now rewrite <- app_assoc, app_nil_r.
    + exists [exn_msg e]. unfold call, print; simpl. now rewrite <- app_assoc.
  - exists []. unfold call; simpl. now rewrite <- app_assoc, app_nil_r.
Qed.
End WriterSteps.

Lemma seq_strongly_sorted len : forall start,
  StronglySorted Z.lt (map Z.of_nat (seq start len)).
Proof.
  induction len as [|len IH]; simpl; intros start; constructor; auto.
  apply Forall_forall. intros z Hz. apply in_map_iff in Hz.
  destruct Hz as (i & <- & Hi). apply in_seq in Hi. lia.
Qed.

Section WriterClaims.
Import Py Writer.
Variable V : Type.
Variable py_str : V -> string.
Variable create_table : string -> dict unit -> option exn.
Implicit Types (w : world V) (m : cf_mapping).

(** C1, as the code has it: evaluating a mapping entry removes nothing
    from the working copy (only [row_fields] are popped, before the
    mapping is read), so a closing ["all"] entry emits every field of the
    working copy under its family, whatever earlier entries emitted; for
    the mapping [("a", ["x"]), ("b", "all")] and the record {x:1, y:2} the
    columns are a:x, b:x and b:y. *)
Theorem C1_all_emits_whole_working_copy (h : heap V) (d_ : loc) pre cf :
  valid_mapping pre ->
  NoDup (dict_keys (deref h d_)) ->
  (exists values,
     build_values V py_str h d_ (pre ++ [(cf, SelAll)]) [] = Ok values /\
     forall c v, dict_get (deref h d_) c = Some v ->
                 dict_get values (column_id cf c) = Some (py_str v)) /\
  values_put pyval
    (fst (save_to_hbase pyval pyval_str (fun _ _ => None) "uid" [0%nat] "t"
            [("a", SelFields ["x"]); ("b", SelAll)] None 1000
            (MkWorld [[("x", PyInt 1); ("y", PyInt 2)]] [] []))) =
  [[("a:x", "1"); ("b:x", "1"); ("b:y", "2")]].
Proof.
  intros Hpre Hnd. split; [|reflexivity].
  destruct (build_values_app V py_str h d_ pre [(cf, SelAll)] [] Hpre)
    as [values' E].
  rewrite E. simpl. eexists; split; [reflexivity|].
  intros c v Hc. rewrite put_all_get by assumption. now rewrite Hc.
Qed.

(** Where the code does what its documentation says of an invalid
    mapping: when the batch size is positive, there is at least one record
    and some entry of the mapping has a selector that is neither ["all"]
    nor a list, the call raises the invalid-mapping error while the first
    record is converted: the table was acquired and the batch opened, but
    no row was put and the batch was never sent. *)
Lemma invalid_mapping_raises_before_any_put
    uid d ds h_table_name m row_fields batch_size w :
  0 < batch_size ->
  In SelOther (map snd m) ->
  exists w' cfs,
    save_to_hbase V py_str create_table uid (d :: ds) h_table_name m
      row_fields batch_size w = (w', Raise invalid_mapping) /\
    w_calls w' =
    w_calls w ++ [CreateTable h_table_name cfs; OpenTable h_table_name;
                  NewBatch batch_size] /\
    filter is_batch_write (w_calls w') = filter is_batch_write (w_calls w).
Proof.
  intros Hpos Hin. unfold save_to_hbase.
  destruct (get_h_table_spec V create_table h_table_name (Some (families m)) w)
    as (cfs & out & Eg).
  rewrite Eg; clear Eg. rewrite new_batch_positive by assumption.
  match goal with |- context [save_documents _ _ _ _ _ _ ?w1 ?n] =>
    destruct (save_documents_invalid V py_str uid m row_fields d ds w1 n Hin)
      as (w' & E & Hcalls & _) end.
  rewrite E. exists w', cfs. split; [reflexivity|].
  rewrite Hcalls. unfold call; simpl.
  split.
  - rewrite <- !app_assoc. simpl. reflexivity.
  - rewrite !filter_app. simpl. now rewrite !app_nil_r.
Qed.

(** C5, as the code has it: table acquisition never raises.  When
    [create_table] fails because the table already exists nothing is
    printed; any other failure is caught as well, its message is printed,
    and in both cases the table is opened and returned. *)
Theorem C5_creation_failure_is_caught table_name cf w e :
  let r := __get_h_table__ V (fun _ _ => Some e) table_name cf w in
  snd r = Ok table_name /\
  (exists cfs, w_calls (fst r) =
               w_calls w ++ [CreateTable table_name cfs; OpenTable table_name]) /\
  (class_str e = already_exists_class -> w_stdout (fst r) = w_stdout w) /\
  (class_str e <> already_exists_class ->
   w_stdout (fst r) = w_stdout w ++ [exn_msg e]).
Proof.
  unfold __get_h_table__. cbv beta iota zeta.
  destruct (String.eqb (class_str e) already_exists_class) eqn:E;
    unfold call, print; cbn [fst snd w_calls w_stdout w_heap];
    (split; [reflexivity|]); (split; [eexists; now rewrite <- app_assoc|]);
    split; intros H; try reflexivity.
  - apply String.eqb_eq in E. contradiction.
  - apply String.eqb_neq in E. contradiction.
Qed.

(** C7: in auto mode (no [row_fields]) the records a session writes are
    put under the keys [uid~0], [uid~1], ..., in call order, with [uid]
    fixed for the call; these keys are pairwise distinct and their sequence
    numbers strictly increasing.  A session that returns has written all N
    records, under [uid~0] to [uid~(N-1)]; it returns whenever the mapping
    is well formed and the batch size positive. *)
Theorem C7_auto_row_keys uid documents h_table_name m row_fields batch_size w :
  auto_mode row_fields = true ->
  let r := save_to_hbase V py_str create_table uid documents h_table_name m
             row_fields batch_size w in
  exists written : nat,
    let sequence := map Z.of_nat (seq 0 written) in
    rows_put V (fst r) = rows_put V w ++ map (auto_row uid) sequence /\
    NoDup (map (auto_row uid) sequence) /\
    StronglySorted Z.lt sequence /\
    (snd r = Ok tt -> written = List.length documents) /\
    (valid_mapping m -> 0 < batch_size -> snd r = Ok tt).
Proof.
  intros Hauto r.
  assert (Hkeys : forall written,
            NoDup (map (auto_row uid) (map Z.of_nat (seq 0 written))) /\
            StronglySorted Z.lt (map Z.of_nat (seq 0 written))).
  { intros written. split; [|apply seq_strongly_sorted].
    apply Injective_map_NoDup.
    - intros i j. apply auto_row_inj.
    - apply Injective_map_NoDup;
        [intros i j; apply Nat2Z.inj | apply seq_NoDup]. }
  subst r. unfold save_to_hbase.
  destruct (get_h_table_spec V create_table h_table_name (Some (families m)) w)
    as (cfs & out & Eg).
  rewrite Eg; clear Eg.
  match goal with |- context [new_batch _ _ ?w0] => set (w1 := w0) end.
  assert (Hw1 : rows_put V w1 = rows_put V w).
  { subst w1. unfold rows_put; simpl. rewrite flat_map_app; simpl.
    now rewrite app_nil_r. }
  destruct (Z_lt_le_dec 0 batch_size) as [Hpos|Hneg].
  - rewrite new_batch_positive by assumption.
    destruct (save_documents_auto_any V py_str uid m row_fields documents
                (call V (NewBatch batch_size) w1) 0 Hauto)
      as (written & Hrows & Hall & Hok).
    exists written. cbv zeta.
    destruct (save_documents V py_str uid m row_fields documents
                (call V (NewBatch batch_size) w1) 0) as [w2 [[]|e]];
      cbn [fst snd] in *.
    + split; [|destruct (Hkeys written); auto].
      rewrite rows_put_call, Hrows, rows_put_call, Hw1. simpl.
      now rewrite !app_nil_r, map_map.
    + split; [|destruct (Hkeys written); repeat split; auto; discriminate].
      rewrite Hrows, rows_put_call, Hw1. simpl. now rewrite app_nil_r, map_map.
  - rewrite new_batch_refused by assumption.
    exists 0%nat. cbn [fst snd map seq].
    rewrite rows_put_call, Hw1. simpl. rewrite !app_nil_r.
    repeat split; try constructor; try discriminate. lia.
Qed.

(** C9: the call changes no object that existed before it: every record
    passed in is read and copied, and fields are popped only from the
    copy, also when [row_fields] are given. *)
Theorem C9_documents_not_mutated uid documents h_table_name m row_fields batch_size w :
  let w' := fst (save_to_hbase V py_str create_table uid documents
                   h_table_name m row_fields batch_size w) in
  (exists fresh, w_heap w' = w_heap w ++ fresh) /\
  (forall d, (d < List.length (w_heap w))%nat -> deref (w_heap w') d = deref (w_heap w) d) /\
  Forall (fun d => nth_error (w_heap w) d <> None ->
                   nth_error (w_heap w') d = nth_error (w_heap w) d) documents.
Proof.
  intros w'.
  assert (Hfresh : exists fresh, w_heap w' = w_heap w ++ fresh).
  { subst w'. unfold save_to_hbase.
    destruct (get_h_table_spec V create_table h_table_name (Some (families m)) w)
      as (cfs & out & Eg).
    rewrite Eg; clear Eg. unfold new_batch.
    destruct (batch_size <=? 0).
    - exists []. simpl. now rewrite app_nil_r.
    - match goal with |- context [save_documents _ _ _ _ _ _ ?w1 ?n] =>
        destruct (save_documents_frame V py_str uid m row_fields documents w1 n)
          as [fresh Hf];
        destruct (save_documents V py_str uid m row_fields documents w1 n)
          as [w2 [[]|e]] end; simpl in *; now exists fresh. }
  split; [exact Hfresh|]. destruct Hfresh as [fresh Hf]. split.
  - intros d Hd. rewrite Hf. now apply deref_app_old.
  - apply Forall_forall. intros d _ Hd. rewrite Hf.
    apply nth_error_app1. now apply nth_error_Some.
Qed.
End WriterClaims.

(** ** The writer on concrete sessions *)

Import Py Writer WriterExamples.

(** C1, against the claim as written: for the mapping
    [("a", ["x"]), ("b", "all")] and the record {x:1, y:2} the row is put
    with three columns, and x does appear under family b. *)
Lemma C1_all_repeats_claimed_field :
  exists values,
    values_put pyval
      (fst (save_to_hbase pyval pyval_str created "uid" [0%nat] "t" a_x_b_all
              None 1000 one_record)) = [values] /\
    dict_get values "b:x" = Some "1" /\
    List.length values = 3%nat /\
    values <> [("a:x", "1"); ("b:y", "2")].
Proof.
  eexists. split; [reflexivity|]. repeat split; discriminate.
Qed.

Lemma C1_all_emits_whole_working_copy_witness :
  valid_mapping [("a", SelFields ["x"])] /\
  NoDup (dict_keys (deref [record_xy] 0%nat)) /\
  exists values,
    build_values pyval pyval_str [record_xy] 0%nat
      ([("a", SelFields ["x"])] ++ [("b", SelAll)]) [] = Ok values /\
    forall c v, dict_get (deref [record_xy] 0%nat) c = Some v ->
                dict_get values (column_id "b" c) = Some (pyval_str v).
Proof.
  assert (Hv : valid_mapping [("a", SelFields ["x"])]).
  { repeat constructor. discriminate. }
  assert (Hn : NoDup (dict_keys (deref [record_xy] 0%nat))).
  { repeat constructor; simpl; intuition discriminate. }
  split; [exact Hv|]. split; [exact Hn|].
  exact (proj1 (C1_all_emits_whole_working_copy pyval pyval_str
                  [record_xy] 0%nat [("a", SelFields ["x"])] "b" Hv Hn)).
Defined.

(** C4, where the code departs from its documentation ("Raises: Exception:
    If column mapping is invalid"): the mapping is only looked at while a
    record is converted.  With no record to write, a mapping whose selector
    is neither ["all"] nor a list raises nothing: the call creates the
    table with the family of the invalid entry, sends the empty batch and
    returns; the same mapping with one record raises before anything is
    put. *)
Theorem C4_invalid_mapping_unnoticed_without_records :
  ~ valid_mapping [("a", SelOther)] /\
  save_to_hbase pyval pyval_str created "uid" [] "t" [("a", SelOther)] None 1000
    (MkWorld [] [] []) =
  (MkWorld [] [CreateTable "t" [("a", tt)]; OpenTable "t"; NewBatch 1000; BatchSend] [],
   Ok tt) /\
  save_to_hbase pyval pyval_str created "uid" [0%nat] "t" [("a", SelOther)] None 1000
    one_record =
  (MkWorld [record_xy; record_xy]
     [CreateTable "t" [("a", tt)]; OpenTable "t"; NewBatch 1000] [],
   Raise invalid_mapping).
Proof.
  split; [|split; reflexivity].
  intros H. inversion H as [|? ? Hsel _]; subst. now apply Hsel.
Qed.

Example invalid_mapping_with_one_record :
  exists w' cfs,
    save_to_hbase pyval pyval_str created "uid" [0%nat] "t"
      [("a", SelFields ["x"]); ("b", SelOther)] None 1000 one_record =
    (w', Raise invalid_mapping) /\
    w_calls w' = w_calls one_record ++ [CreateTable "t" cfs; OpenTable "t"; NewBatch 1000] /\
    filter is_batch_write (w_calls w') = filter is_batch_write (w_calls one_record).
Proof.
  apply (invalid_mapping_raises_before_any_put pyval pyval_str created
           "uid" 0%nat [] "t" _ None 1000 one_record eq_refl).
  simpl. auto.
Qed.

(** C5, against the claim as written: a creation failure other than
    "already exists" does not reach the caller; the table is returned. *)
Lemma C5_other_failure_is_swallowed :
  class_str io_error <> already_exists_class /\
  __get_h_table__ pyval (fun _ _ => Some io_error) "t" (Some [("a", tt)])
    (MkWorld [] [] []) =
  (MkWorld [] [CreateTable "t" [("a", tt)]; OpenTable "t"] [exn_msg io_error],
   Ok "t") /\
  snd (__get_h_table__ pyval (fun _ _ => Some io_error) "t" (Some [("a", tt)])
         (MkWorld [] [] [])) <> Raise io_error.
Proof. repeat split; discriminate. Qed.

Lemma C5_creation_failure_is_caught_witness :
  class_str io_error <> already_exists_class /\
  w_stdout (fst (__get_h_table__ pyval (fun _ _ => Some io_error) "t" None one_record)) =
  w_stdout one_record ++ [exn_msg io_error].
Proof.
  assert (H : class_str io_error <> already_exists_class) by discriminate.
  split; [exact H|].
  exact (proj2 (proj2 (proj2 (C5_creation_failure_is_caught pyval "t" None
                                one_record io_error))) H).
Defined.

Lemma C7_auto_row_keys_witness :
  auto_mode None = true /\
  exists written : nat,
    let sequence := map Z.of_nat (seq 0 written) in
    let r := save_to_hbase pyval pyval_str created "uid" [0%nat; 0%nat; 0%nat] "t"
               a_x_b_all None 1000 one_record in
    rows_put pyval (fst r) = rows_put pyval one_record ++ map (auto_row "uid") sequence /\
    NoDup (map (auto_row "uid") sequence) /\
    StronglySorted Z.lt sequence /\
    (snd r = Ok tt -> written = 3%nat) /\
    (valid_mapping a_x_b_all -> 0 < 1000 -> snd r = Ok tt).
Proof.
  split; [reflexivity|].
  exact (C7_auto_row_keys pyval pyval_str created "uid"
           [0%nat; 0%nat; 0%nat] "t" a_x_b_all None 1000 one_record eq_refl).
Defined.

(** C7 on three records: the keys put are uid~0, uid~1 and uid~2. *)
Example auto_row_keys_of_three :
  rows_put pyval
    (fst (save_to_hbase pyval pyval_str created "uid" [0%nat; 0%nat; 0%nat] "t"
            a_x_b_all None 1000 one_record)) = ["uid~0"; "uid~1"; "uid~2"].
Proof. reflexivity. Qed.

Lemma C9_documents_not_mutated_witness :
  (0 < List.length (w_heap one_record))%nat /\
  deref (w_heap (fst (save_to_hbase pyval pyval_str created "uid" [0%nat] "t"
                        a_x_b_all (Some ["x"]) 1000 one_record))) 0%nat =
  deref (w_heap one_record) 0%nat.
Proof.
  assert (H : (0 < List.length (w_heap one_record))%nat) by (simpl; lia).
  split; [exact H|].
  exact (proj1 (proj2 (C9_documents_not_mutated pyval pyval_str created "uid"
                         [0%nat] "t" a_x_b_all (Some ["x"]) 1000 one_record))
           0%nat H).
Defined.

(** C9 with a key field: x is popped from the working copy allocated by the
    call, the record passed in keeps it. *)
Example explicit_key_pops_only_the_copy :
  save_to_hbase pyval pyval_str created "uid" [0%nat] "t" a_x_b_all (Some ["x"; "z"])
    1000 one_record =
  (MkWorld [record_xy; [("y", PyInt 2)]]
     [CreateTable "t" [("a", tt); ("b", tt)]; OpenTable "t"; NewBatch 1000;
      BatchPut "1~" [("b:y", "2")]; BatchSend] [],
   Ok tt).
Proof. reflexivity. Qed.

(** ** Keys and their order *)

Section KeyOrder.
Import Cursor.
Implicit Types (a b c : str).

Lemma str_compare_refl a : str_compare a a = Eq.
Proof. induction a as [|x a IH]; simpl; auto. now rewrite Z.compare_refl. Qed.

Lemma str_compare_eq a : forall b, str_compare a b = Eq -> a = b.
Proof.
  induction a as [|x a IH]; intros [|y b]; simpl; try discriminate; auto.
  destruct (x ?= y) eqn:E; try discriminate.
  apply Z.compare_eq in E. intros H. f_equal; auto.
Qed.

Lemma str_compare_lt_trans a : forall b c,
  str_compare a b = Lt -> str_compare b c = Lt -> str_compare a c = Lt.
Proof.
  induction a as [|x a IH]; intros [|y b] [|z c]; simpl; try discriminate; auto.
  destruct (x ?= y) eqn:Exy; try discriminate;
    destruct (y ?= z) eqn:Eyz; try discriminate; intros H1 H2.
  - apply Z.compare_eq in Exy, Eyz. subst. rewrite Z.compare_refl. eauto.
  - apply Z.compare_eq in Exy. subst. now rewrite Eyz.
  - apply Z.compare_eq in Eyz. subst. now rewrite Exy.
  - rewrite Z.compare_lt_iff in Exy, Eyz.
    assert (E : (x ?= z) = Lt) by (apply Z.compare_lt_iff; lia). now rewrite E.
Qed.

Lemma str_ltb_leb_trans a b c :
  str_ltb a b = true -> str_leb b c = true -> str_ltb a c = true.
Proof.
  unfold str_ltb, str_leb. intros Hab Hbc.
  destruct (str_compare a b) eqn:E1; try discriminate.
  destruct (str_compare b c) eqn:E2; try discriminate.
  - apply str_compare_eq in E2. subst. now rewrite E1.
  - now rewrite (str_compare_lt_trans a b c E1 E2).
Qed.

Lemma str_leb_ltb_trans a b c :
  str_leb a b = true -> str_ltb b c = true -> str_ltb a c = true.
Proof.
  unfold str_ltb, str_leb. intros Hab Hbc.
  destruct (str_compare b c) eqn:E2; try discriminate.
  destruct (str_compare a b) eqn:E1; try discriminate.
  - apply str_compare_eq in E1. subst. now rewrite E2.
  - now rewrite (str_compare_lt_trans a b c E1 E2).
Qed.

Lemma str_ltb_leb a b : str_ltb a b = true -> str_leb a b = true.
Proof. unfold str_ltb, str_leb. now destruct (str_compare a b). Qed.

Lemma str_ltb_irrefl a : str_ltb a a = false.
Proof. unfold str_ltb. now rewrite str_compare_refl. Qed.

Lemma str_ltb_not_leb a b : str_ltb a b = true -> str_leb b a = false.
Proof.
  intros H. destruct (str_leb b a) eqn:E; auto.
  rewrite <- (str_ltb_irrefl a). symmetry. eapply str_ltb_leb_trans; eauto.
Qed.

Lemma str_leb_prefix a : forall b, str_leb a (a ++ b) = true.
Proof.
  unfold str_leb. induction a as [|x a IH]; intros b; simpl.
  - now destruct b.
  - rewrite Z.compare_refl. apply IH.
Qed.

(** A key that extends [p ++ [x]] lies below [p ++ [x + 1]]. *)
Lemma str_ltb_bump p x b : str_ltb (p ++ x :: b) (p ++ [x + 1]) = true.
Proof.
  unfold str_ltb. induction p as [|y p IH]; simpl.
  - assert (E : (x ?= x + 1) = Lt) by (apply Z.compare_lt_iff; lia).
    now rewrite E.
  - now rewrite Z.compare_refl.
Qed.

Lemma incr_last_inv a k :
  incr_last a = Py.Ok k ->
  exists p x, a = p ++ [x] /\ k = p ++ [x + 1] /\ 0 <= x + 1 <= max_code_point.
Proof.
  unfold incr_last. destruct (rev a) as [|x r] eqn:E; [discriminate|].
  unfold chr, ord. destruct ((0 <=? x + 1) && (x + 1 <=? max_code_point)) eqn:B;
    simpl; [|discriminate].
  intros H. injection H as <-. exists (rev r), x.
  apply andb_prop in B. destruct B as [B1 B2].
  repeat split; try lia.
  rewrite <- (rev_involutive a), E. reflexivity.
Qed.

Lemma incr_last_ok p x :
  0 <= x + 1 <= max_code_point -> incr_last (p ++ [x]) = Py.Ok (p ++ [x + 1]).
Proof.
  intros Hx. unfold incr_last. rewrite rev_app_distr. simpl.
  unfold chr, ord.
  replace ((0 <=? x + 1) && (x + 1 <=? max_code_point)) with true
    by (symmetry; apply andb_true_iff; split; apply Z.leb_le; lia).
  simpl. now rewrite rev_involutive.
Qed.

(** The advanced bound is strictly above the key it was computed from. *)
Lemma incr_last_above a k : incr_last a = Py.Ok k -> str_ltb a k = true.
Proof.
  intros H. destruct (incr_last_inv a k H) as (p & x & -> & -> & _).
  apply str_ltb_bump.
Qed.
End KeyOrder.

(** ** Rounds of the cursor, for any scan primitive *)

Section RoundFacts.
Import Py Cursor.
Variable C : Type.
Variable scan : option str -> option str -> Z -> Z -> result (list (row C)).
Variable batch_size : Z.
Variable limit : option Z.

Abbreviation round := (round C scan batch_size limit).
Abbreviation run := (fun fuel => run C scan fuel batch_size limit).

(** What is known when the loop goes round again. *)
Lemma round_continue c data c' :
  round c = Continue data c' ->
  scan (row_start c) (row_stop c) batch_size (current_limit c) = Ok data /\
  (2 <= List.length data)%nat /\
  incr_last (last_key data) = Ok (match row_start c' with Some k => k | None => [] end) /\
  row_start c' <> None /\
  row_stop c' = row_stop c /\
  current_register c' = current_register c + Z.of_nat (List.length data) /\
  match limit_set limit with
  | Some l => current_register c' < l /\
              current_limit c' = Z.min batch_size (l - current_register c')
  | None => current_limit c' = current_limit c
  end.
Proof.
  unfold Cursor.round.
  destruct (scan _ _ _ _) as [[|r data0]|e]; try discriminate.
  remember (r :: data0) as d eqn:Hd. clear Hd.
  destruct (Z.of_nat (List.length d) <=? 1) eqn:Hlen; [discriminate|].
  apply Z.leb_gt in Hlen.
  destruct (limit_set limit) as [l|].
  - destruct (current_register c + Z.of_nat (List.length d) >=? l) eqn:Hl;
      [discriminate|].
    rewrite Z.geb_leb in Hl. apply Z.leb_gt in Hl.
    destruct (incr_last (last_key d)) as [k|e] eqn:Hk; [|discriminate].
    intros H. injection H as <- <-.
    cbn [row_start row_stop current_limit current_register].
    repeat split; try reflexivity; try discriminate; try assumption; lia.
  - destruct (incr_last (last_key d)) as [k|e] eqn:Hk; [|discriminate].
    intros H. injection H as <- <-.
    cbn [row_start row_stop current_limit current_register].
    repeat split; try reflexivity; try discriminate; try assumption; lia.
Qed.

(** What is known when the generator ends after yielding. *)
Lemma round_finish_yield c data s :
  round c = Finish (Some data) s ->
  scan (row_start c) (row_stop c) batch_size (current_limit c) = Ok data /\
  data <> [] /\
  ((List.length data <= 1)%nat <-> s = SingleRowTerminal).
Proof.
  unfold Cursor.round.
  destruct (scan _ _ _ _) as [[|r data0]|e]; try discriminate.
  assert (Hne : r :: data0 <> []) by discriminate.
  remember (r :: data0) as d eqn:Hd. clear Hd.
  destruct (Z.of_nat (List.length d) <=? 1) eqn:Hlen.
  - intros H. injection H as <- <-. apply Z.leb_le in Hlen.
    repeat split; auto. lia.
  - apply Z.leb_gt in Hlen.
    assert (Hgt : ~ (List.length d <= 1)%nat) by lia.
    destruct (limit_set limit) as [l|].
    + destruct (_ >=? l).
      * intros H. injection H as <- <-.
        repeat split; auto; try discriminate; tauto.
      * destruct (incr_last (last_key d)); [discriminate|].
        intros H. injection H as <- <-.
        repeat split; auto; try discriminate; tauto.
    + destruct (incr_last (last_key d)); [discriminate|].
      intros H. injection H as <- <-.
      repeat split; auto; try discriminate; tauto.
Qed.

Lemma round_finish_nothing c s :
  round c = Finish None s ->
  match scan (row_start c) (row_stop c) batch_size (current_limit c) with
  | Ok data => data = [] /\ s = Exhausted
  | Raise e => s = Raised e
  end.
Proof.
  unfold Cursor.round.
  destruct (scan _ _ _ _) as [[|r data0]|e].
  - intros H. now injection H as <-.
  - destruct (Z.of_nat _ <=? 1); [discriminate|].
    destruct (limit_set limit) as [l|];
      [destruct (_ >=? l); [discriminate|]|];
      destruct (incr_last _); discriminate.
  - intros H. now injection H as <-.
Qed.

(** Unfolding one round of the driver. *)
Lemma run_S fuel c :
  run (S fuel) c =
  match round c with
  | Finish yielded s => ([log_of C c yielded], Some s)
  | Continue data c' =>
      (log_of C c (Some data) :: fst (run fuel c'), snd (run fuel c'))
  end.
Proof.
  simpl. destruct (Cursor.round _ _ _ _ c); auto.
  now destruct (Cursor.run C scan fuel batch_size limit c0).
Qed.

Lemma run_head fuel c e rest :
  fst (run fuel c) = e :: rest ->
  req_start e = row_start c /\ req_stop e = row_stop c /\
  req_limit e = current_limit c.
Proof.
  destruct fuel as [|fuel]; [discriminate|].
  rewrite run_S. destruct (round c); simpl; intros H; injection H as <- _; auto.
Qed.

(** Once the generator has ended, more fuel changes nothing. *)
Lemma run_fuel_mono fuel : forall c logs s fuel',
  run fuel c = (logs, Some s) -> (fuel <= fuel')%nat ->
  run fuel' c = (logs, Some s).
Proof.
  induction fuel as [|fuel IH]; intros c logs s fuel' Hrun Hle; [discriminate|].
  destruct fuel' as [|fuel']; [lia|].
  rewrite run_S in *. destruct (round c) as [data c'|y s']; auto.
  destruct (run fuel c') as [logs' o] eqn:E. simpl in Hrun.
  injection Hrun as <- ->.
  now rewrite (IH c' logs' s fuel' E) by lia.
Qed.
End RoundFacts.

Lemma app_cons_singleton {A : Type} (pre post : list A) (e x : A) :
  pre ++ e :: post = [x] -> pre = [] /\ e = x /\ post = [].
Proof.
  destruct pre as [|y pre]; simpl; intros H.
  - injection H as -> ->. auto.
  - injection H as _ H. now destruct pre.
Qed.

Section LogFacts.
Import Py Cursor.
Variable C : Type.
Variable scan : option str -> option str -> Z -> Z -> result (list (row C)).
Variable batch_size : Z.
Variable limit : option Z.

Abbreviation round := (round C scan batch_size limit).
Abbreviation run := (fun fuel => run C scan fuel batch_size limit).

Lemma rows_yielded_cons (c : cursor) (y : option (list (row C))) logs :
  rows_yielded (log_of C c y :: logs) =
  match y with Some data => Z.of_nat (List.length data) | None => 0 end
  + rows_yielded logs.
Proof. unfold rows_yielded, batches. simpl. now destruct y. Qed.

(** Between two consecutive rounds the start bound moves to the
    incremented key of the last row yielded. *)
Lemma run_adjacent fuel : forall c pre e1 e2 post,
  fst (run fuel c) = pre ++ e1 :: e2 :: post ->
  exists data k,
    batch e1 = Some data /\ (2 <= List.length data)%nat /\
    incr_last (last_key data) = Ok k /\ req_start e2 = Some k.
Proof.
  induction fuel as [|fuel IH]; intros c pre e1 e2 post Hlog.
  - now destruct pre.
  - rewrite run_S in Hlog. destruct (round c) as [data c'|y s] eqn:Hr; simpl in Hlog.
    + destruct pre as [|x pre]; simpl in Hlog; injection Hlog as Hx Hrest.
      * subst e1. destruct (round_continue C scan batch_size limit c data c' Hr)
          as (_ & Hlen & Hk & Hsome & _).
        destruct (run_head C scan batch_size limit fuel c' e2 post Hrest)
          as (Hs & _).
        destruct (row_start c') as [k|] eqn:Ek; [|congruence].
        exists data, k. simpl. rewrite Hs. auto.
      * eapply IH. exact Hrest.
    + destruct pre as [|x [|x' pre]]; discriminate.
Qed.

(** A round that yields a single row is the last one. *)
Lemma run_single_row fuel : forall c pre e post r,
  fst (run fuel c) = pre ++ e :: post -> batch e = Some [r] ->
  post = [] /\ snd (run fuel c) = Some SingleRowTerminal.
Proof.
  induction fuel as [|fuel IH]; intros c pre e post r Hlog He.
  - now destruct pre.
  - rewrite run_S in *. destruct (round c) as [data c'|y s] eqn:Hr; simpl in *.
    + destruct pre as [|x pre]; simpl in Hlog; injection Hlog as Hx Hrest.
      * subst e. simpl in He. injection He as ->.
        destruct (round_continue C scan batch_size limit c [r] c' Hr)
          as (_ & Hlen & _). simpl in Hlen. lia.
      * eapply IH; eauto.
    + symmetry in Hlog. apply app_cons_singleton in Hlog. destruct Hlog as (_ & -> & ->).
      simpl in He. subst y. split; [reflexivity|]. f_equal.
      apply (round_finish_yield C scan batch_size limit c [r] s Hr). simpl. lia.
Qed.

(** With a limit [l] in force, each round asks for
    [min(batch_size, l - rows yielded so far)]. *)
Lemma run_requested_sizes l fuel : forall c pre e post,
  limit_set limit = Some l ->
  current_limit c = Z.min batch_size (l - current_register c) ->
  fst (run fuel c) = pre ++ e :: post ->
  req_limit e = Z.min batch_size (l - (current_register c + rows_yielded pre)).
Proof.
  induction fuel as [|fuel IH]; intros c pre e post Hl Hc Hlog.
  - now destruct pre.
  - rewrite run_S in Hlog. destruct (round c) as [data c'|y s] eqn:Hr; simpl in Hlog.
    + destruct (round_continue C scan batch_size limit c data c' Hr)
        as (_ & _ & _ & _ & _ & Hreg & Hlim).
      rewrite Hl in Hlim. destruct Hlim as [_ Hlim].
      destruct pre as [|x pre]; simpl in Hlog; injection Hlog as Hx Hrest.
      * subst e. simpl. rewrite Hc. f_equal. unfold rows_yielded; simpl. lia.
      * subst x. rewrite rows_yielded_cons.
        rewrite (IH c' pre e post Hl Hlim Hrest), Hreg. f_equal. lia.
    + symmetry in Hlog. apply app_cons_singleton in Hlog. destruct Hlog as (-> & -> & _).
      simpl. rewrite Hc. f_equal. unfold rows_yielded; simpl. lia.
Qed.

Lemma run_rows_bounded l fuel : forall c,
  scan_respects_limit C scan ->
  limit_set limit = Some l ->
  current_register c < l ->
  current_limit c = Z.min batch_size (l - current_register c) ->
  current_register c + rows_yielded (fst (run fuel c)) <= l.
Proof.
  induction fuel as [|fuel IH]; intros c Hscan Hl Hreg Hc.
  - unfold rows_yielded; simpl. lia.
  - rewrite run_S. destruct (round c) as [data c'|y s] eqn:Hr; simpl.
    + destruct (round_continue C scan batch_size limit c data c' Hr)
        as (_ & _ & _ & _ & _ & Hreg' & Hlim).
      rewrite Hl in Hlim. destruct Hlim as [Hlt Hlim].
      rewrite rows_yielded_cons.
      specialize (IH c' Hscan Hl Hlt Hlim). lia.
    + rewrite rows_yielded_cons.
      replace (rows_yielded (@nil (round_log C))) with 0 by reflexivity.
      destruct y as [data|]; [|lia].
      destruct (round_finish_yield C scan batch_size limit c data s Hr) as (Hs & _).
      apply Hscan in Hs. lia.
Qed.

(** Without a limit in force every round asks for [batch_size] rows. *)
Lemma run_unlimited_sizes fuel : forall c e,
  limit_set limit = None ->
  current_limit c = batch_size ->
  In e (fst (run fuel c)) -> req_limit e = batch_size.
Proof.
  induction fuel as [|fuel IH]; intros c e Hl Hc Hin; [contradiction|].
  rewrite run_S in Hin. destruct (round c) as [data c'|y s] eqn:Hr; simpl in Hin.
  - destruct Hin as [<-|Hin]; [exact Hc|].
    destruct (round_continue C scan batch_size limit c data c' Hr)
      as (_ & _ & _ & _ & _ & _ & Hlim).
    rewrite Hl in Hlim. apply (IH c' e Hl); congruence.
  - destruct Hin as [<-|[]]. exact Hc.
Qed.
End LogFacts.

(** ** The cursor over a finite table *)

Lemma filter_length_le {A : Type} (p q : A -> bool) (l : list A) :
  (forall a, q a = true -> p a = true) ->
  (List.length (filter q l) <= List.length (filter p l))%nat.
Proof.
  intros Hqp. induction l as [|a l IH]; simpl; auto.
  destruct (q a) eqn:Hq.
  - rewrite (Hqp a Hq). simpl. lia.
  - destruct (p a); simpl; lia.
Qed.

Lemma filter_length_lt {A : Type} (p q : A -> bool) (l : list A) (x : A) :
  (forall a, q a = true -> p a = true) ->
  In x l -> p x = true -> q x = false ->
  (List.length (filter q l) < List.length (filter p l))%nat.
Proof.
  intros Hqp Hin Hp Hq. induction l as [|a l IH]; simpl; [contradiction|].
  destruct Hin as [->|Hin].
  - rewrite Hp, Hq. simpl.
    pose proof (filter_length_le p q l Hqp). lia.
  - specialize (IH Hin). destruct (q a) eqn:Hqa.
    + rewrite (Hqp a Hqa). simpl. lia.
    + destruct (p a); simpl; lia.
Qed.

Lemma filter_length_bound {A : Type} (p : A -> bool) (l : list A) :
  (List.length (filter p l) <= List.length l)%nat.
Proof. induction l as [|a l IH]; simpl; auto. destruct (p a); simpl; lia. Qed.

Lemma in_firstn {A : Type} (n : nat) (l : list A) (x : A) :
  In x (firstn n l) -> In x l.
Proof.
  intros H. rewrite <- (firstn_skipn n l). apply in_or_app. now left.
Qed.

Section StoreFacts.
Import Py Cursor.
Variable C : Type.
Variable store : list (row C).
Variable batch_size : Z.
Variable limit : option Z.

Abbreviation sscan := (store_scan C store).
Abbreviation remaining := (Cursor.remaining C store).
Abbreviation sround := (Cursor.round C (store_scan C store) batch_size limit).
Abbreviation srun := (fun fuel => Cursor.run C (store_scan C store) fuel batch_size limit).

Lemma store_scan_ok start stop size lim data :
  sscan start stop size lim = Ok data ->
  1 <= size /\ 1 <= lim /\
  data = firstn (Z.to_nat lim)
           (filter (fun r => in_range start stop (fst r)) store).
Proof.
  unfold store_scan.
  destruct (size <? 1) eqn:Hs; [discriminate|].
  destruct (lim <? 1) eqn:Hl; [discriminate|].
  destruct (negb _); [discriminate|].
  destruct (max_i32 <? size); [discriminate|].
  apply Z.ltb_ge in Hs, Hl. intros H. injection H as <-. auto.
Qed.

(** A request with sizes of at least one, a batch size that fits an i32
    and encodable bounds is answered. *)
Lemma store_scan_accepts start stop size lim :
  1 <= size <= max_i32 -> 1 <= lim ->
  bound_encodable start = true -> bound_encodable stop = true ->
  sscan start stop size lim =
  Ok (firstn (Z.to_nat lim) (filter (fun r => in_range start stop (fst r)) store)).
Proof.
  intros Hs Hl Hstart Hstop. unfold store_scan. rewrite Hstart, Hstop.
  destruct (size <? 1) eqn:E1; [apply Z.ltb_lt in E1; lia|].
  destruct (lim <? 1) eqn:E2; [apply Z.ltb_lt in E2; lia|].
  destruct (max_i32 <? size) eqn:E3; [apply Z.ltb_lt in E3; lia|].
  reflexivity.
Qed.

Lemma store_scan_in start stop size lim data r :
  sscan start stop size lim = Ok data -> In r data ->
  In r store /\ in_range start stop (fst r) = true.
Proof.
  intros Hs Hin. apply store_scan_ok in Hs. destruct Hs as (_ & _ & ->).
  apply in_firstn in Hin. now apply filter_In in Hin.
Qed.

Lemma store_scan_respects_limit : scan_respects_limit C sscan.
Proof.
  intros start stop size lim data Hs.
  apply store_scan_ok in Hs. destruct Hs as (_ & Hl & ->).
  pose proof (firstn_le_length (Z.to_nat lim)
                (filter (fun r => in_range start stop (fst r)) store)) as H.
  unfold row in *. lia.
Qed.

Lemma last_key_in (data : list (row C)) :
  data <> [] -> exists r, In r data /\ fst r = last_key data.
Proof.
  intros Hne. destruct (exists_last Hne) as (l & r & ->).
  exists r. split; [apply in_or_app; right; now left|].
  unfold last_key. rewrite map_app. simpl. now rewrite last_last.
Qed.

(** Going round again leaves strictly fewer rows inside the bounds. *)
Lemma round_shrinks c data c' :
  sround c = Continue data c' -> (remaining c' < remaining c)%nat.
Proof.
  intros Hr.
  destruct (round_continue C sscan batch_size limit c data c' Hr)
    as (Hs & Hlen & Hk & Hsome & Hstop & _).
  destruct (row_start c') as [k|] eqn:Ek; [clear Hsome|congruence].
  assert (Hne : data <> []) by (intros ->; simpl in Hlen; lia).
  destruct (last_key_in data Hne) as (r & Hin & Hkey).
  destruct (store_scan_in _ _ _ _ _ r Hs Hin) as (Hstore & Hrange).
  apply incr_last_above in Hk. rewrite <- Hkey in Hk.
  unfold Cursor.remaining. rewrite Ek, Hstop.
  apply filter_length_lt with (x := r); auto.
  - intros a Ha. unfold in_range in *.
    apply andb_true_iff in Ha. destruct Ha as [Ha1 Ha2].
    apply andb_true_iff in Hrange. destruct Hrange as [Hr1 _].
    apply andb_true_iff. split; [|exact Ha2].
    destruct (row_start c) as [s|]; auto.
    apply str_ltb_leb.
    eapply str_ltb_leb_trans; [|exact Ha1].
    eapply str_leb_ltb_trans; eauto.
  - unfold in_range. now rewrite (str_ltb_not_leb _ _ Hk).
Qed.

(** The generator ends within [remaining c + 1] rounds. *)
Lemma run_terminates n : forall c,
  (remaining c <= n)%nat -> exists logs s, srun (S n) c = (logs, Some s).
Proof.
  induction n as [|n IH]; intros c Hn; rewrite run_S;
    destruct (sround c) as [data c'|y s] eqn:Hr; eauto;
    apply round_shrinks in Hr.
  - lia.
  - destruct (IH c') as (logs & s & E); [lia|].
    rewrite E. simpl. eauto.
Qed.

(** Advancing past a key of the table whose increment can be encoded
    leaves bounds that can be sent. *)
Lemma advance_encodable c data c' :
  Forall (fun r => advanceable (fst r)) store ->
  bounds_encodable c ->
  sround c = Continue data c' -> bounds_encodable c'.
Proof.
  intros Hkeys [_ Hstop] Hr.
  destruct (round_continue C sscan batch_size limit c data c' Hr)
    as (Hs & Hlen & Hk & Hsome & Hstop' & _).
  split; [|now rewrite Hstop'].
  destruct (row_start c') as [k|]; [|congruence].
  assert (Hne : data <> []) by (intros ->; simpl in Hlen; lia).
  destruct (last_key_in data Hne) as (r & Hin & Hkey).
  destruct (store_scan_in _ _ _ _ _ r Hs Hin) as (Hstore & _).
  rewrite Forall_forall in Hkeys.
  destruct (Hkeys r Hstore) as (k' & Hk' & Henc).
  rewrite Hkey, Hk in Hk'. injection Hk' as ->. exact Henc.
Qed.

(** With sizes of at least one, a batch size that fits an i32, bounds that
    can be sent and keys that can be advanced no round raises. *)
Lemma run_normal fuel : forall c logs s,
  1 <= batch_size <= max_i32 ->
  match limit_set limit with Some l => 0 < l | None => True end ->
  Forall (fun r => advanceable (fst r)) store ->
  1 <= current_limit c ->
  bounds_encodable c ->
  srun fuel c = (logs, Some s) -> normal s.
Proof.
  induction fuel as [|fuel IH]; intros c logs s Hb Hl Hkeys Hc Henc Hrun;
    [discriminate|].
  rewrite run_S in Hrun.
  assert (Hscan : exists data,
             sscan (row_start c) (row_stop c) batch_size (current_limit c) = Ok data).
  { destruct Henc as [H1 H2]. rewrite store_scan_accepts by assumption. eauto. }
  destruct Hscan as [data Hscan].
  destruct (sround c) as [data' c'|y s'] eqn:Hr.
  - destruct (srun fuel c') as [logs' o] eqn:E. simpl in Hrun.
    injection Hrun as _ ->.
    apply (IH c' logs' s Hb Hl Hkeys); auto.
    + destruct (round_continue C sscan batch_size limit c data' c' Hr)
        as (_ & _ & _ & _ & _ & _ & Hlim).
      destruct (limit_set limit) as [l|]; [|lia].
      destruct Hlim as [Hlt ->]. lia.
    + eapply advance_encodable; eauto.
  - injection Hrun as _ <-.
    destruct y as [data'|].
    + unfold Cursor.round in Hr. rewrite Hscan in Hr.
      destruct data as [|r data]; [discriminate|].
      remember (r :: data) as d eqn:Hd.
      destruct (Z.of_nat (List.length d) <=? 1); [now injection Hr as _ <-|].
      assert (Hinc : incrementable (last_key d)).
      { destruct (last_key_in d) as (r0 & Hin & <-); [subst; discriminate|].
        destruct (store_scan_in _ _ _ _ _ r0 Hscan Hin) as (Hst & _).
        rewrite Forall_forall in Hkeys.
        destruct (Hkeys r0 Hst) as (k' & Hk' & _). now exists k'. }
      destruct Hinc as [k Hk]. rewrite Hk in Hr.
      destruct (limit_set limit) as [l|]; [|discriminate].
      destruct (_ >=? l); [now injection Hr as _ <-|discriminate].
    + apply round_finish_nothing in Hr. rewrite Hscan in Hr.
      destruct Hr as [_ ->]. exact I.
Qed.
End StoreFacts.

(** ** The claims on the cursor *)

Section CursorClaims.
Import Py Cursor CursorExamples.
Variable C : Type.
Variable scan : option str -> option str -> Z -> Z -> result (list (row C)).

Lemma get_hbase_data_batch_run fuel rs rst rp batch_size limit :
  (fst (get_hbase_data_batch C scan fuel rs rst rp batch_size limit) = [] /\
   exists e, init_cursor rs rst rp batch_size limit = Raise e) \/
  exists c,
    init_cursor rs rst rp batch_size limit = Ok c /\
    get_hbase_data_batch C scan fuel rs rst rp batch_size limit =
    run C scan fuel batch_size limit c.
Proof.
  unfold get_hbase_data_batch.
  destruct (init_cursor rs rst rp batch_size limit) as [c|e]; eauto.
Qed.

Lemma init_cursor_state rs rst rp batch_size limit c :
  init_cursor rs rst rp batch_size limit = Ok c ->
  current_register c = 0 /\
  current_limit c =
  match limit_set limit with
  | Some l => Z.min batch_size l
  | None => batch_size
  end.
Proof.
  unfold init_cursor.
  destruct (scan_bounds rs rst rp) as [bounds|e]; [|discriminate].
  intros H. injection H as <-. simpl. split; [reflexivity|].
  unfold first_limit.
  destruct (limit_set limit) as [l|]; auto.
  destruct (l >? batch_size) eqn:E.
  - rewrite Z.gtb_ltb in E. apply Z.ltb_lt in E. lia.
  - rewrite Z.gtb_ltb in E. apply Z.ltb_ge in E. lia.
Qed.

(** C2: between two consecutive rounds, the earlier one yielded at least
    two rows and the later one starts at the key of the last row yielded
    with its final code point incremented by one; a round that yields
    exactly one row is the last, whatever the table still holds.  With
    batch_size 2 on the keys k1..k5, the rounds return [k1, k2] and then
    [k3] (from the start bound k3), and the generator stops there. *)
Theorem C2_cursor_advancement fuel rs rst rp batch_size limit :
  let r := get_hbase_data_batch C scan fuel rs rst rp batch_size limit in
  (forall pre e1 e2 post,
     fst r = pre ++ e1 :: e2 :: post ->
     exists data k,
       batch e1 = Some data /\ (2 <= List.length data)%nat /\
       incr_last (last_key data) = Ok k /\ req_start e2 = Some k) /\
  (forall pre e post row,
     fst r = pre ++ e :: post -> batch e = Some [row] ->
     post = [] /\ snd r = Some SingleRowTerminal) /\
  get_hbase_data_batch unit (store_scan unit k1_to_k5) 10 None None None 2 (Some 3) =
  ([MkLog None None 2 (Some (table ["k1"; "k2"]));
    MkLog (Some (of_string "k3")) None 1 (Some (table ["k3"]))],
   Some SingleRowTerminal).
Proof.
  intros r. subst r.
  destruct (get_hbase_data_batch_run fuel rs rst rp batch_size limit)
    as [[Hnil _]|(c & _ & ->)].
  - rewrite Hnil. repeat split; try reflexivity.
    + intros [|? ?] ? ? ? H; discriminate.
    + destruct pre; discriminate.
    + destruct pre; discriminate.
  - repeat split; try reflexivity.
    + intros pre e1 e2 post. apply run_adjacent.
    + eapply run_single_row; eauto.
    + eapply run_single_row; eauto.
Qed.

(** C3: with a limit set, each round asks the store for
    [min(batch_size, limit - rows yielded so far)] rows, and, the store
    returning no more rows than asked, the rows yielded never exceed the
    limit; with batch_size 100 and limit 150 the rounds ask for 100 and
    then 50 rows. *)
Theorem C3_limit_reconciliation fuel rs rst rp batch_size l :
  l <> 0 ->
  let logs := fst (get_hbase_data_batch C scan fuel rs rst rp batch_size (Some l)) in
  (forall pre e post,
     logs = pre ++ e :: post ->
     req_limit e = Z.min batch_size (l - rows_yielded pre)) /\
  (0 < l -> scan_respects_limit C scan -> rows_yielded logs <= l) /\
  map req_limit
    (fst (get_hbase_data_batch unit (store_scan unit two_hundred_rows) 10
            None None None 100 (Some 150))) = [100; 50].
Proof.
  intros Hl logs.
  assert (Hset : limit_set (Some l) = Some l).
  { simpl. apply Z.eqb_neq in Hl. now rewrite Hl. }
  split; [|split; [|vm_compute; reflexivity]].
  - subst logs.
    destruct (get_hbase_data_batch_run fuel rs rst rp batch_size (Some l))
      as [[Hnil _]|(c & Hc & ->)].
    + rewrite Hnil. intros [|? ?] ? ? H; discriminate.
    + apply init_cursor_state in Hc. rewrite Hset in Hc. destruct Hc as [Hreg Hlim].
      intros pre e post Hlog.
      rewrite (run_requested_sizes C scan batch_size (Some l) l fuel c pre e post
                 Hset) by (rewrite ?Hreg, ?Z.sub_0_r; auto).
      now rewrite Hreg.
  - intros Hpos Hscan. subst logs.
    destruct (get_hbase_data_batch_run fuel rs rst rp batch_size (Some l))
      as [[Hnil _]|(c & Hc & ->)].
    + rewrite Hnil. unfold rows_yielded; simpl. lia.
    + apply init_cursor_state in Hc. rewrite Hset in Hc. destruct Hc as [Hreg Hlim].
      pose proof (run_rows_bounded C scan batch_size (Some l) l fuel c Hscan Hset)
        as H.
      rewrite Hreg in H. apply H; [lia|]. now rewrite Z.sub_0_r.
Qed.
End CursorClaims.

Section PrefixAndLimitClaims.
Import Py Cursor CursorExamples.
Variable C : Type.
Variable scan : option str -> option str -> Z -> Z -> result (list (row C)).

(** A round whose scan returns rows yields all of them. *)
Lemma round_yields batch_size limit c data :
  scan (row_start c) (row_stop c) batch_size (current_limit c) = Ok data ->
  data <> [] ->
  (exists c', round C scan batch_size limit c = Continue data c') \/
  (exists s, round C scan batch_size limit c = Finish (Some data) s).
Proof.
  intros Hs Hne. unfold round. rewrite Hs.
  destruct data as [|r data]; [contradiction|].
  remember (r :: data) as d eqn:Hd. clear Hd Hne.
  destruct (Z.of_nat (List.length d) <=? 1); [eauto|].
  destruct (limit_set limit) as [l|];
    [destruct (_ >=? l); [eauto|]|]; destruct (incr_last (last_key d)); eauto.
Qed.

Lemma run_limit_zero batch_size fuel : forall c,
  run C scan fuel batch_size (Some 0) c = run C scan fuel batch_size None c.
Proof.
  induction fuel as [|fuel IH]; intros c; [reflexivity|].
  rewrite !run_S.
  change (round C scan batch_size (Some 0) c) with (round C scan batch_size None c).
  destruct (round C scan batch_size None c); auto. now rewrite IH.
Qed.

(** C6, as the code has it: a non-empty prefix whose last code point is
    below U+10FFFF replaces whatever bounds the caller passed: the scan
    starts at the prefix and stops before the prefix with its last code
    point incremented by one, so every key that extends the prefix is in
    range.  The prefix user:9 gives the bounds user:9 and user::, which
    include user:9abc and exclude user:a.  An empty prefix is taken as no
    prefix: the caller's bounds are kept.  A prefix that ends in U+10FFFF
    makes the call raise ValueError before any scan. *)
Theorem C6_prefix_bounds fuel rs rst body x suffix batch_size limit :
  0 <= x < max_code_point ->
  let p := body ++ [x] in
  let q := body ++ [x + 1] in
  scan_bounds rs rst (Some p) = Ok (Some p, Some q) /\
  (exists e rest,
     fst (get_hbase_data_batch C scan (S fuel) rs rst (Some p) batch_size limit) =
     e :: rest /\ req_start e = Some p /\ req_stop e = Some q) /\
  in_range (Some p) (Some q) (p ++ suffix) = true /\
  scan_bounds rs rst (Some (of_string "user:9")) =
    Ok (Some (of_string "user:9"), Some (of_string "user::")) /\
  in_range (Some (of_string "user:9")) (Some (of_string "user::"))
    (of_string "user:9abc") = true /\
  in_range (Some (of_string "user:9")) (Some (of_string "user::"))
    (of_string "user:a") = false /\
  scan_bounds rs rst (Some []) = Ok (rs, rst) /\
  get_hbase_data_batch C scan fuel rs rst (Some (body ++ [max_code_point]))
    batch_size limit = ([], Some (Raised value_error)).
Proof.
  intros Hx p q.
  assert (Hb : scan_bounds rs rst (Some p) = Ok (Some p, Some q)).
  { unfold scan_bounds. subst p q. rewrite incr_last_ok by lia.
    destruct body; reflexivity. }
  split; [exact Hb|]. split; [|split; [|repeat split]].
  - unfold get_hbase_data_batch, init_cursor. rewrite Hb. cbn [bind fst snd].
    rewrite run_S. destruct (round _ _ _ _ _); simpl; eauto.
  - unfold in_range. apply andb_true_iff. split.
    + apply str_leb_prefix.
    + subst p q. rewrite <- app_assoc. apply str_ltb_bump.
  - unfold get_hbase_data_batch, init_cursor, scan_bounds.
    assert (Hi : incr_last (body ++ [max_code_point]) = Raise value_error).
    { unfold incr_last. rewrite rev_app_distr. reflexivity. }
    rewrite Hi. destruct body; reflexivity.
Qed.

(** C10, as the code has it: a limit of 0 is no limit.  The call makes
    the same rounds and ends the same way as without a limit, every round
    asks for batch_size rows, and the rows the first scan returns are
    yielded as the first batch; the rounds still end at the first
    single-row batch, as they do without a limit. *)
Theorem C10_limit_zero_is_no_limit fuel rs rst rp batch_size :
  let r := get_hbase_data_batch C scan fuel rs rst rp batch_size (Some 0) in
  r = get_hbase_data_batch C scan fuel rs rst rp batch_size None /\
  (forall e, In e (fst r) -> req_limit e = batch_size) /\
  (forall c data,
     (0 < fuel)%nat ->
     init_cursor rs rst rp batch_size (Some 0) = Ok c ->
     scan (row_start c) (row_stop c) batch_size batch_size = Ok data ->
     data <> [] ->
     exists rest, batches (fst r) = data :: rest).
Proof.
  intros r. subst r. split; [|split].
  - unfold get_hbase_data_batch.
    change (init_cursor rs rst rp batch_size (Some 0))
      with (init_cursor rs rst rp batch_size None).
    destruct (init_cursor rs rst rp batch_size None); auto.
    apply run_limit_zero.
  - intros e.
    destruct (get_hbase_data_batch_run C scan fuel rs rst rp batch_size (Some 0))
      as [[Hnil _]|(c & Hc & ->)].
    + rewrite Hnil. contradiction.
    + apply init_cursor_state in Hc. destruct Hc as [_ Hc]. simpl in Hc.
      now apply run_unlimited_sizes.
  - intros c data Hfuel Hc Hs Hne.
    unfold get_hbase_data_batch. rewrite Hc.
    destruct fuel as [|fuel]; [lia|]. rewrite run_S.
    pose proof (init_cursor_state _ _ _ _ _ _ Hc) as [_ Hlim]. simpl in Hlim.
    assert (Hs' : scan (row_start c) (row_stop c) batch_size (current_limit c) =
                  Ok data) by (now rewrite Hlim).
    destruct (round_yields batch_size (Some 0) c data Hs' Hne) as [[c' E]|[s E]];
      rewrite E; unfold batches; simpl; eauto.
Qed.
End PrefixAndLimitClaims.

(** C8, as the code has it: on a finite table the generator always ends,
    within one round more than the table has rows.  It ends in one of the
    three normal states (empty round, single-row batch, limit reached) when
    batch_size is at least 1 and fits an i32, the limit is absent or not
    negative, the bounds of the scan (the caller's, or those derived from a
    prefix) can be computed and hold no surrogate code point, and every key
    of the table can be advanced: it is non-empty, its last code point is
    below U+10FFFF, and the key with that code point incremented holds no
    surrogate.  Otherwise it can also end by raising. *)
Theorem C8_generator_terminates (C : Type) (store : list (Cursor.row C))
    rs rst rp batch_size limit :
  exists logs s,
    (forall fuel, (List.length store < fuel)%nat ->
       Cursor.get_hbase_data_batch C (Cursor.store_scan C store) fuel rs rst rp
         batch_size limit = (logs, Some s)) /\
    (1 <= batch_size <= Cursor.max_i32 ->
     match limit with Some l => 0 <= l | None => True end ->
     Cursor.sendable_bounds rs rst rp ->
     Forall (fun r => Cursor.advanceable (fst r)) store ->
     Cursor.normal s).
Proof.
  unfold Cursor.get_hbase_data_batch.
  destruct (Cursor.init_cursor rs rst rp batch_size limit) as [c|e] eqn:Hinit.
  - destruct (run_terminates C store batch_size limit (List.length store) c)
      as (logs & s & Hrun).
    { apply filter_length_bound. }
    exists logs, s. split.
    + intros fuel Hfuel.
      apply (run_fuel_mono C _ batch_size limit (S (List.length store)) c logs s
               fuel Hrun). lia.
    + intros Hb Hl (s0 & e0 & Hbounds & Hs0 & He0) Hkeys.
      apply (run_normal C store batch_size limit (S (List.length store)) c logs s
               Hb); auto.
      * destruct limit as [l|]; simpl; auto.
        destruct (l =? 0) eqn:E; auto. apply Z.eqb_neq in E. lia.
      * apply init_cursor_state in Hinit. destruct Hinit as [_ ->].
        destruct limit as [l|]; simpl; try lia.
        destruct (l =? 0) eqn:E; lia.
      * unfold Cursor.init_cursor in Hinit. rewrite Hbounds in Hinit.
        injection Hinit as <-. split; assumption.
  - exists [], (Cursor.Raised e). split; [reflexivity|].
    intros _ _ (s0 & e0 & Hbounds & _) _. exfalso.
    unfold Cursor.init_cursor in Hinit. rewrite Hbounds in Hinit. discriminate.
Qed.

Import Cursor CursorExamples.

Lemma C2_cursor_advancement_witness :
  let e1 := MkLog None None 2 (Some (table ["k1"; "k2"])) in
  let e2 := MkLog (Some (of_string "k3")) None 1 (Some (table ["k3"])) in
  fst (get_hbase_data_batch unit (store_scan unit k1_to_k5) 10 None None None 2 (Some 3)) =
  [] ++ e1 :: e2 :: [] /\
  exists data k,
    batch e1 = Some data /\ (2 <= List.length data)%nat /\
    incr_last (last_key data) = Ok k /\ req_start e2 = Some k.
Proof.
  intros e1 e2.
  assert (H : fst (get_hbase_data_batch unit (store_scan unit k1_to_k5) 10
                     None None None 2 (Some 3)) = [] ++ e1 :: e2 :: [])
    by reflexivity.
  split; [exact H|].
  exact (proj1 (C2_cursor_advancement unit (store_scan unit k1_to_k5) 10
                  None None None 2 (Some 3)) [] e1 e2 [] H).
Defined.

Lemma C3_limit_reconciliation_witness :
  150 <> 0 /\ 0 < 150 /\
  rows_yielded
    (fst (get_hbase_data_batch unit (store_scan unit two_hundred_rows) 10
            None None None 100 (Some 150))) <= 150.
Proof.
  assert (H0 : 150 <> 0) by discriminate.
  assert (H1 : 0 < 150) by reflexivity.
  split; [exact H0|]. split; [exact H1|].
  exact (proj1 (proj2 (C3_limit_reconciliation unit (store_scan unit two_hundred_rows)
                         10 None None None 100 150 H0))
           H1 (store_scan_respects_limit unit two_hundred_rows)).
Defined.

Lemma C6_prefix_bounds_witness :
  0 <= 57 < max_code_point /\
  scan_bounds (Some (of_string "a")) (Some (of_string "b"))
    (Some (of_string "user:" ++ [57])) =
  Ok (Some (of_string "user:" ++ [57]), Some (of_string "user:" ++ [57 + 1])).
Proof.
  assert (H : 0 <= 57 < max_code_point) by (unfold max_code_point; lia).
  split; [exact H|].
  exact (proj1 (C6_prefix_bounds unit (store_scan unit users) 0
                  (Some (of_string "a")) (Some (of_string "b"))
                  (of_string "user:") 57 [] 10 None H)).
Defined.

(** C6, against the claim as written: a prefix can be given without the
    bounds being derived from it.  With the empty prefix the caller's
    bounds a and b are the ones scanned (and no row of the table lies
    between them); with a prefix that ends in U+10FFFF no bounds are
    derived at all, the call raises ValueError. *)
Lemma C6_prefix_given_but_bounds_not_derived :
  scan_bounds (Some (of_string "a")) (Some (of_string "b")) (Some []) =
    Ok (Some (of_string "a"), Some (of_string "b")) /\
  get_hbase_data_batch unit (store_scan unit users) 10
    (Some (of_string "a")) (Some (of_string "b")) (Some []) 10 None =
    ([MkLog (Some (of_string "a")) (Some (of_string "b")) 10 None], Some Exhausted) /\
  scan_bounds None None (Some [117; max_code_point]) = Raise value_error /\
  get_hbase_data_batch unit (store_scan unit users) 10
    None None (Some [117; max_code_point]) 10 None =
    ([], Some (Raised value_error)).
Proof. repeat split. Qed.

(** C6 on a table: with the prefix user:9 the rows user:9 and user:9abc are
    returned, user:8 and user:a are not. *)
Example prefix_scan_of_users :
  batches (fst (get_hbase_data_batch unit (store_scan unit users) 10
                  None None (Some (of_string "user:9")) 10 None)) =
  [table ["user:9"; "user:9abc"]].
Proof. reflexivity. Qed.

(** A key that ends in U+D7FF: the first round yields a and b\ud7ff, the
    start bound advances to b\ud800, which holds a lone surrogate, and the
    next scan raises UnicodeEncodeError; c is never yielded. *)
Example raises_below_surrogates :
  get_hbase_data_batch unit (store_scan unit below_surrogates) 10
    None None None 2 None =
  ([MkLog None None 2 (Some [([97], tt); ([98; 55295], tt)]);
    MkLog (Some [98; 55296]) None 2 None],
   Some (Raised encode_error)).
Proof. reflexivity. Qed.

(** A batch size of 2^31 does not fit the i32 of the request: the first
    scan raises. *)
Example raises_on_oversized_batch :
  get_hbase_data_batch unit (store_scan unit k1_to_k5) 10
    None None None 2147483648 None =
  ([MkLog None None 2147483648 None], Some (Raised i32_error)).
Proof. reflexivity. Qed.

(** C8, against the claim as written: on a table whose last key ends in
    U+10FFFF the first round yields its batch and the advance of the start
    bound raises ValueError, so the generator ends in none of the three
    normal states. *)
Lemma C8_raises_on_top_code_point :
  get_hbase_data_batch unit (store_scan unit top_code_point) 3 None None None 2 None =
  ([MkLog None None 2 (Some top_code_point)], Some (Raised value_error)) /\
  ~ (exists fuel s,
       snd (get_hbase_data_batch unit (store_scan unit top_code_point) fuel
              None None None 2 None) = Some s /\ normal s).
Proof.
  split; [reflexivity|].
  intros (fuel & s & Hs & Hn). destruct fuel as [|fuel].
  - discriminate.
  - vm_compute in Hs. injection Hs as <-. exact Hn.
Qed.

Lemma C8_generator_terminates_witness :
  1 <= 2 <= max_i32 /\ 0 <= 3 /\
  sendable_bounds None None None /\
  Forall (fun r : row unit => advanceable (fst r)) k1_to_k5 /\
  exists logs s,
    get_hbase_data_batch unit (store_scan unit k1_to_k5) 6 None None None 2 (Some 3) =
    (logs, Some s) /\ normal s.
Proof.
  assert (Hb : 1 <= 2 <= max_i32) by (unfold max_i32; lia).
  assert (Hl : 0 <= 3) by lia.
  assert (Hs : sendable_bounds None None None).
  { exists None, None. repeat split. }
  assert (Hk : Forall (fun r : row unit => advanceable (fst r)) k1_to_k5).
  { repeat constructor; eexists; split; reflexivity. }
  split; [exact Hb|]. split; [exact Hl|]. split; [exact Hs|]. split; [exact Hk|].
  destruct (C8_generator_terminates unit k1_to_k5 None None None 2 (Some 3))
    as (logs & s & Hrun & Hnormal).
  exists logs, s. split.
  - apply Hrun. simpl. lia.
  - exact (Hnormal Hb Hl Hs Hk).
Defined.

(** C10, against the claim as written: with batch_size 1 and limit 0 the
    scan of a table of two rows yields the first row and stops; the second
    row, which is in range, is never yielded. *)
Lemma C10_limit_zero_does_not_yield_every_row :
  get_hbase_data_batch unit (store_scan unit (table ["k1"; "k2"])) 10
    None None None 1 (Some 0) =
  ([MkLog None None 1 (Some (table ["k1"]))], Some SingleRowTerminal) /\
  in_range None None (of_string "k2") = true /\
  ~ In (of_string "k2", tt)
      (List.concat (batches (fst (get_hbase_data_batch unit
                               (store_scan unit (table ["k1"; "k2"])) 10
                               None None None 1 (Some 0))))).
Proof.
  split; [reflexivity|]. split; [reflexivity|].
  simpl. intros [H|[]]. discriminate.
Qed.

Lemma C10_limit_zero_is_no_limit_witness :
  (0 < 10)%nat /\
  exists rest,
    batches (fst (get_hbase_data_batch unit (store_scan unit k1_to_k5) 10
                    None None None 2 (Some 0))) = table ["k1"; "k2"] :: rest.
Proof.
  assert (H : (0 < 10)%nat) by lia.
  split; [exact H|].
  refine (proj2 (proj2 (C10_limit_zero_is_no_limit unit (store_scan unit k1_to_k5) 10
                          None None None 2))
            (MkCursor None None 2 0) (table ["k1"; "k2"]) H eq_refl eq_refl _).
  discriminate.
Defined.

(** C10 on five rows: the same batches with limit 0 as with no limit. *)
Example limit_zero_on_five_rows :
  batches (fst (get_hbase_data_batch unit (store_scan unit k1_to_k5) 10
                  None None None 2 (Some 0))) =
  [table ["k1"; "k2"]; table ["k3"; "k4"]; table ["k5"]].
Proof. reflexivity. Qed.

(** * Further properties of the writer *)

Section MoreDictFacts.
Import Py.
Context {V : Type}.
Implicit Types (d : dict V) (k f : string) (v : V).

Lemma dict_get_In d k v : dict_get d k = Some v -> In (k, v) d.
Proof.
  induction d as [|[k' v'] d IH]; simpl; [discriminate|].
  destruct (String.eqb k k') eqn:E.
  - apply String.eqb_eq in E. subst. intros H. injection H as ->. now left.
  - intros H. right. auto.
Qed.

Lemma In_dict_keys d k v : In (k, v) d -> In k (dict_keys d).
Proof. intros H. apply (in_map fst) in H. exact H. Qed.

Lemma In_dict_get d k v :
  NoDup (dict_keys d) -> In (k, v) d -> dict_get d k = Some v.
Proof.
  induction d as [|[k' v'] d IH]; simpl; intros Hnd Hin; [contradiction|].
  inversion Hnd as [|? ? Hk Hd]; subst.
  destruct Hin as [H|H].
  - injection H as -> ->. now rewrite String.eqb_refl.
  - destruct (String.eqb k k') eqn:E; auto.
    apply String.eqb_eq in E. subst. apply In_dict_keys in H. contradiction.
Qed.






Lemma dict_set_fresh d k v :
  ~ In k (dict_keys d) -> dict_set d k v = d ++ [(k, v)].
Proof.
  induction d as [|[k' v'] d IH]; simpl; intros Hn; auto.
  destruct (String.eqb k k') eqn:E.
  - apply String.eqb_eq in E. subst. tauto.
  - rewrite IH; tauto.
Qed.

Lemma dict_set_keys d k v k' :
  In k' (dict_keys (dict_set d k v)) <-> k' = k \/ In k' (dict_keys d).
Proof.
  induction d as [|[k0 v0] d IH]; simpl.
  - intuition.
  - destruct (String.eqb k k0) eqn:E; simpl.
    + apply String.eqb_eq in E. subst. intuition.
    + rewrite IH. intuition.
Qed.

Lemma dict_set_nodup d k v :
  NoDup (dict_keys d) -> NoDup (dict_keys (dict_set d k v)).
Proof.
  induction d as [|[k0 v0] d IH]; simpl; intros Hnd.
  - constructor; [intros []|constructor].
  - inversion Hnd as [|? ? Hk Hd]; subst.
    destruct (String.eqb k k0) eqn:E; simpl.
    + constructor; auto.
    + constructor; auto. rewrite dict_set_keys. intros [->|H]; auto.
      now rewrite String.eqb_refl in E.
Qed.
End MoreDictFacts.

Section RecordFacts.
Import Py Writer.
Variable V : Type.
Variable py_str : V -> string.
Implicit Types (d : dict V) (w : world V) (m : cf_mapping).





Lemma put_all_sound cf d : forall values k s,
  dict_get (put_all V py_str cf d values) k = Some s ->
  dict_get values k = Some s \/
  exists c v, In (c, v) d /\ k = column_id cf c /\ s = py_str v.
Proof.
  unfold put_all.
  induction d as [|[c v] d IH]; simpl; intros values k s Hk; auto.
  destruct (IH _ k s Hk) as [H|(c' & v' & Hin & -> & ->)].
  - destruct (string_dec k (column_id cf c)) as [->|Hne].
    + rewrite dict_get_set_same in H. injection H as <-.
      right. exists c, v. simpl. auto.
    + rewrite dict_get_set_other in H by assumption. auto.
  - right. exists c', v'. simpl. auto.
Qed.

Lemma put_fields_sound cf fs d : forall values k s,
  dict_get (put_fields V py_str cf fs d values) k = Some s ->
  dict_get values k = Some s \/
  exists c v, In c fs /\ dict_get d c = Some v /\ k = column_id cf c /\ s = py_str v.
Proof.
  unfold put_fields.
  induction fs as [|c fs IH]; simpl; intros values k s Hk; auto.
  destruct (IH _ k s Hk) as [H|(c' & v' & Hin & Hget & -> & ->)].
  - destruct (dict_get d c) as [v|] eqn:E; auto.
    destruct (string_dec k (column_id cf c)) as [->|Hne].
    + rewrite dict_get_set_same in H. injection H as <-.
      right. exists c, v. simpl. auto.
    + rewrite dict_get_set_other in H by assumption. auto.
  - right. exists c', v'. simpl. auto.
Qed.

(** Every column built for a record is family:field for an entry of the
    mapping that selects the field and a field of the working copy, with
    that field's [str]. *)
Lemma build_values_sound (h : heap V) (d_ : loc) m : forall values values' k s,
  build_values V py_str h d_ m values = Ok values' ->
  dict_get values' k = Some s ->
  dict_get values k = Some s \/
  exists cf sel c v,
    In (cf, sel) m /\ selects sel c /\ In (c, v) (deref h d_) /\
    k = column_id cf c /\ s = py_str v.
Proof.
  induction m as [|[cf sel] m IH]; simpl; intros values values' k s Hb Hk.
  - injection Hb as <-. auto.
  - destruct sel; [| |discriminate].
    + destruct (IH _ _ k s Hb Hk) as [H|(cf' & sel' & c & v & ? & ? & ? & ? & ?)].
      * apply put_all_sound in H. destruct H as [H|(c & v & ? & ? & ?)]; auto.
        right. exists cf, SelAll, c, v. simpl. auto.
      * right. exists cf', sel', c, v. auto.
    + destruct (IH _ _ k s Hb Hk) as [H|(cf' & sel' & c & v & ? & ? & ? & ? & ?)].
      * apply put_fields_sound in H.
        destruct H as [H|(c & v & ? & Hg & ? & ?)]; auto.
        right. exists cf, (SelFields fields), c, v. apply dict_get_In in Hg.
        simpl. auto.
      * right. exists cf', sel', c, v. auto.
Qed.


End RecordFacts.

Section SessionFacts.
Import Py Writer.
Variable V : Type.
Variable py_str : V -> string.
Variable create_table : string -> dict unit -> option exn.
Implicit Types (w : world V) (m : cf_mapping).


End SessionFacts.

Section SessionProperties.
Import Py Writer.
Variable V : Type.
Variable py_str : V -> string.
Variable create_table : string -> dict unit -> option exn.
Implicit Types (w : world V) (m : cf_mapping).



Lemma rows_put_app w puts :
  rows_put V (MkWorld (w_heap w) (w_calls w ++ puts) (w_stdout w)) =
  rows_put V w ++ flat_map (fun c => match put_row c with Some r => [r] | None => [] end) puts.
Proof. unfold rows_put; simpl. apply flat_map_app. Qed.


(** What table acquisition does, exactly. *)
Lemma get_h_table_exact table_name cf w :
  let cfs := match cf with
             | Some ((_ :: _) as cf) => cf
             | _ => [("cf", tt)]
             end in
  __get_h_table__ V create_table table_name cf w =
  (MkWorld (w_heap w)
     (w_calls w ++ [CreateTable table_name cfs; OpenTable table_name])
     (w_stdout w ++
      match create_table table_name cfs with
      | Some e => if String.eqb (class_str e) already_exists_class then []
                  else [exn_msg e]
      | None => []
      end),
   Ok table_name).
Proof.
  intros cfs. subst cfs. unfold __get_h_table__. cbv zeta.
  destruct (create_table table_name _) as [e|].
  - destruct (String.eqb (class_str e) already_exists_class);
      unfold call, print; cbn [w_heap w_calls w_stdout];
      now rewrite <- app_assoc, ?app_nil_r.
  - unfold call; cbn [w_heap w_calls w_stdout].
    now rewrite <- app_assoc, app_nil_r.
Qed.




End SessionProperties.

(** ** Column ids, families and row keys as strings *)

Lemma column_id_unambiguous cf1 : forall cf2 c1 c2,
  Writer.no_colon cf1 -> Writer.no_colon cf2 ->
  Writer.column_id cf1 c1 = Writer.column_id cf2 c2 -> cf1 = cf2 /\ c1 = c2.
Proof.
  unfold Writer.column_id, Writer.no_colon.
  induction cf1 as [|a cf1 IH]; intros [|b cf2] c1 c2 H1 H2 H; simpl in *.
  - injection H as ->. auto.
  - injection H as <- _. tauto.
  - injection H as -> _. tauto.
  - injection H as -> H.
    destruct (IH cf2 c1 c2) as [-> ->]; auto.
Qed.

Lemma auto_row_length_inj uid1 : forall uid2 (s1 s2 : string),
  String.length uid1 = String.length uid2 ->
  (uid1 ++ s1)%string = (uid2 ++ s2)%string -> uid1 = uid2 /\ s1 = s2.
Proof.
  induction uid1 as [|a uid1 IH]; intros [|b uid2] s1 s2 Hlen H; simpl in *;
    try discriminate; auto.
  injection Hlen as Hlen. injection H as -> H.
  destruct (IH uid2 s1 s2 Hlen H) as [-> ->]. auto.
Qed.

Section DictKeys.
Import Py.
Context {V : Type}.

Lemma dict_get_keys (d : dict V) k :
  In k (dict_keys d) <-> exists v, dict_get d k = Some v.
Proof.
  induction d as [|[k' v'] d IH]; simpl.
  - split; [tauto|]. intros [v H]. discriminate.
  - destruct (String.eqb k k') eqn:E.
    + apply String.eqb_eq in E. subst. split; eauto.
    + apply String.eqb_neq in E. rewrite <- IH. intuition congruence.
Qed.
End DictKeys.

Section ColumnFacts.
Import Py Writer.
Variable V : Type.
Variable py_str : V -> string.

Lemma put_all_keys cf (d : dict V) : forall values k,
  In k (dict_keys (put_all V py_str cf d values)) <->
  In k (dict_keys values) \/ exists c, In c (dict_keys d) /\ k = column_id cf c.
Proof.
  unfold put_all.
  induction d as [|[c v] d IH]; simpl; intros values k.
  - split; [auto|]. intros [H|(c & [] & _)]. exact H.
  - rewrite IH, dict_set_keys. split.
    + intros [[->|H]|(c' & Hc' & ->)]; eauto.
    + intros [H|(c' & [<-|Hc'] & ->)]; eauto.
Qed.

Lemma put_fields_keys cf fs (d : dict V) : forall values k,
  In k (dict_keys (put_fields V py_str cf fs d values)) <->
  In k (dict_keys values) \/
  exists c, In c fs /\ In c (dict_keys d) /\ k = column_id cf c.
Proof.
  unfold put_fields.
  induction fs as [|c fs IH]; simpl; intros values k.
  - split; [auto|]. intros [H|(c & [] & _)]. exact H.
  - rewrite IH. destruct (dict_get d c) as [v|] eqn:E.
    + assert (Hc : In c (dict_keys d)) by (apply dict_get_keys; eauto).
      rewrite dict_set_keys. split.
      * intros [[->|H]|(c' & Hc' & Hd & ->)]; eauto 6.
      * intros [H|(c' & [<-|Hc'] & Hd & ->)]; eauto 6.
    + split.
      * intros [H|(c' & Hc' & Hd & ->)]; eauto 6.
      * intros [H|(c' & [<-|Hc'] & Hd & ->)]; eauto 6.
        apply dict_get_keys in Hd. destruct Hd as [v Hv]. congruence.
Qed.

(** The columns present after the mapping has been evaluated. *)
Lemma build_values_keys (h : heap V) (d_ : loc) m : forall values values' k,
  build_values V py_str h d_ m values = Ok values' ->
  (In k (dict_keys values') <->
   In k (dict_keys values) \/
   exists cf sel c,
     In (cf, sel) m /\ selects sel c /\ In c (dict_keys (deref h d_)) /\
     k = column_id cf c).
Proof.
  induction m as [|[cf sel] m IH]; simpl; intros values values' k Hb.
  - injection Hb as <-. split; [auto|]. intros [H|(? & ? & ? & [] & _)]. exact H.
  - destruct sel; [| |discriminate]; rewrite (IH _ _ k Hb).
    + rewrite put_all_keys. split.
      * intros [[H|(c & Hc & ->)]|(cf' & sel' & c & Hin & Hsel & Hc & ->)]; auto.
        -- right. exists cf, SelAll, c. simpl. auto.
        -- right. exists cf', sel', c. auto.
      * intros [H|(cf' & sel' & c & [Heq|Hin] & Hsel & Hc & ->)]; auto.
        -- injection Heq as <- <-. left. right. eauto.
        -- right. exists cf', sel', c. auto.
    + rewrite put_fields_keys. split.
      * intros [[H|(c & Hf & Hc & ->)]|(cf' & sel' & c & Hin & Hsel & Hc & ->)]; auto.
        -- right. exists cf, (SelFields fields), c. simpl. auto.
        -- right. exists cf', sel', c. auto.
      * intros [H|(cf' & sel' & c & [Heq|Hin] & Hsel & Hc & ->)]; auto.
        -- injection Heq as <- <-. left. right. eauto.
        -- right. exists cf', sel', c. auto.
Qed.

(** With family names that hold no colon, the column map of a record is
    determined entry by entry: the column family:field is present exactly
    when the working copy has the field and an entry for that family
    selects it (by "all" or by naming it), and its value is the [str] of
    the field's value; fields named but absent give no column. *)
Theorem X5_columns_characterised (h : heap V) (d_ : loc) m cf c :
  valid_mapping m ->
  NoDup (dict_keys (deref h d_)) ->
  Forall no_colon (map fst m) ->
  no_colon cf ->
  exists values,
    build_values V py_str h d_ m [] = Ok values /\
    forall s,
      dict_get values (column_id cf c) = Some s <->
      exists v sel,
        dict_get (deref h d_) c = Some v /\ In (cf, sel) m /\ selects sel c /\
        s = py_str v.
Proof.
  intros Hvalid Hnd Hfam Hcf.
  destruct (build_values_valid V py_str h d_ m [] Hvalid) as [values Hb].
  exists values. split; [exact Hb|]. intros s.
  assert (Hsound : forall s',
             dict_get values (column_id cf c) = Some s' ->
             exists v sel,
               dict_get (deref h d_) c = Some v /\ In (cf, sel) m /\
               selects sel c /\ s' = py_str v).
  { intros s' Hs'.
    destruct (build_values_sound V py_str h d_ m [] values _ s' Hb Hs')
      as [H|(cf' & sel & c' & v & Hin & Hsel & Hd & Heq & ->)]; [discriminate|].
    assert (Hcf' : no_colon cf').
    { rewrite Forall_forall in Hfam. apply Hfam.
      apply (in_map fst) in Hin. exact Hin. }
    destruct (column_id_unambiguous cf cf' c c' Hcf Hcf' Heq) as [<- <-].
    exists v, sel. split; [now apply In_dict_get|]. auto. }
  split; [apply Hsound|].
  intros (v & sel & Hd & Hin & Hsel & ->).
  assert (Hkey : In (column_id cf c) (dict_keys values)).
  { apply (build_values_keys h d_ m [] values _ Hb). right.
    exists cf, sel, c. repeat split; auto. apply dict_get_keys. eauto. }
  apply dict_get_keys in Hkey. destruct Hkey as [s' Hs'].
  destruct (Hsound s' Hs') as (v' & _ & Hd' & _ & _ & ->).
  congruence.
Qed.

(** The family dict built from a mapping holds the families it names,
    each once. *)
Lemma families_keys m :
  NoDup (dict_keys (families m)) /\
  forall cf, In cf (dict_keys (families m)) <-> In cf (map fst m).
Proof.
  unfold families.
  assert (H : forall (acc : dict unit),
             NoDup (dict_keys acc) ->
             NoDup (dict_keys (fold_left (fun a e => dict_set a (fst e) tt) m acc)) /\
             forall cf,
               In cf (dict_keys (fold_left (fun a e => dict_set a (fst e) tt) m acc)) <->
               In cf (dict_keys acc) \/ In cf (map fst m)).
  { induction m as [|[cf0 sel] m IH]; simpl; intros acc Hacc.
    - split; [exact Hacc|]. intros cf. tauto.
    - destruct (IH (dict_set acc cf0 tt) (dict_set_nodup acc cf0 tt Hacc)) as [Hn Hi].
      split; [exact Hn|]. intros cf. rewrite Hi, dict_set_keys.
      split; intros H; intuition. }
  destruct (H [] (NoDup_nil _)) as [Hn Hi]. split; [exact Hn|].
  intros cf. rewrite Hi. simpl. tauto.
Qed.
End ColumnFacts.

Section TableFamilies.
Import Py Writer.
Variable V : Type.
Variable py_str : V -> string.
Variable create_table : string -> dict unit -> option exn.

(** Every call of [save_to_hbase] starts by creating the table, once, and
    opening it.  The families passed to [create_table] are the families
    named by the mapping, each once; for an empty mapping it is the single
    default family "cf". *)
Theorem X6_families_of_mapping uid documents h_table_name m row_fields batch_size
    (w : world V) :
  exists cfs rest,
    w_calls (fst (save_to_hbase V py_str create_table uid documents h_table_name m
                    row_fields batch_size w)) =
    w_calls w ++ CreateTable h_table_name cfs :: OpenTable h_table_name :: rest /\
    (forall name fams, ~ In (CreateTable name fams) rest) /\
    NoDup (dict_keys cfs) /\
    (m <> [] -> cfs = families m /\
                forall cf, In cf (dict_keys cfs) <-> In cf (map fst m)) /\
    (m = [] -> cfs = [("cf", tt)]).
Proof.
  destruct (families_keys m) as [Hnd Hin].
  assert (Hcfs : exists cfs,
             match families m with [] => [("cf", tt)] | _ :: _ => families m end = cfs /\
             NoDup (dict_keys cfs) /\
             (m <> [] -> cfs = families m /\
                         forall cf, In cf (dict_keys cfs) <-> In cf (map fst m)) /\
             (m = [] -> cfs = [("cf", tt)])).
  { destruct m as [|e m'].
    - exists [("cf", tt)]. split; [reflexivity|].
      split; [repeat constructor; simpl; tauto|]. split; [congruence|reflexivity].
    - destruct (families (e :: m')) as [|x fam] eqn:E.
      + exfalso. apply (proj2 (Hin (fst e))). simpl. auto.
      + exists (x :: fam). split; [reflexivity|]. split; [exact Hnd|].
        split; [intros _; split; [reflexivity|exact Hin] | discriminate]. }
  destruct Hcfs as (cfs & Ecfs & H1 & H2 & H3).
  exists cfs. unfold save_to_hbase. rewrite (get_h_table_exact V create_table).
  rewrite Ecfs. unfold new_batch.
  assert (Hrest : forall rest,
            Forall (fun c => put_row c <> None \/ c = NewBatch batch_size \/
                             c = BatchSend) rest ->
            forall name fams, ~ In (CreateTable name fams) rest).
  { intros rest Hall name fams Hc. rewrite Forall_forall in Hall.
    destruct (Hall _ Hc) as [H|[H|H]]; [now apply H|discriminate|discriminate]. }
  destruct (batch_size <=? 0).
  - exists [NewBatch batch_size]. cbn [fst w_calls call].
    split; [now rewrite <- app_assoc|]. split; [|auto].
    apply Hrest. constructor; [auto|constructor].
  - match goal with |- context [save_documents _ _ _ _ _ _ ?w1 ?n] =>
      destruct (save_documents_calls V py_str uid m row_fields documents w1 n)
        as (puts & Hc & Hp);
      destruct (save_documents V py_str uid m row_fields documents w1 n)
        as [w2 [[]|e]] end; cbn [fst w_calls call] in *.
    + exists (NewBatch batch_size :: puts ++ [BatchSend]). rewrite Hc.
      split; [now rewrite <- !app_assoc|]. split; [|auto].
      apply Hrest. constructor; [auto|]. apply Forall_app. split.
      * eapply Forall_impl; [|exact Hp]. auto.
      * constructor; [auto|constructor].
    + exists (NewBatch batch_size :: puts). rewrite Hc.
      split; [now rewrite <- !app_assoc|]. split; [|auto].
      apply Hrest. constructor; [auto|].
      eapply Forall_impl; [|exact Hp]. auto.
Qed.
End TableFamilies.

(** Column ids are unambiguous as long as family names hold no colon: two
    of them are equal only for the same family and the same field.  With a
    colon in a family name they are not: family a:b with field c and family
    a with field b:c share one id. *)
Theorem X7_column_ids_unambiguous cf1 cf2 c1 c2 x :
  (Writer.no_colon cf1 -> Writer.no_colon cf2 ->
   Writer.column_id cf1 c1 = Writer.column_id cf2 c2 -> cf1 = cf2 /\ c1 = c2) /\
  Writer.column_id (cf1 ++ ":" ++ x)%string c1 =
  Writer.column_id cf1 (x ++ ":" ++ c1)%string.
Proof.
  split; [apply column_id_unambiguous|].
  unfold Writer.column_id.
  assert (Hassoc : forall a b c : string,
             ((a ++ b) ++ c)%string = (a ++ b ++ c)%string).
  { intros a b c. induction a as [|ch a IH]; simpl; [reflexivity|]. now rewrite IH. }
  rewrite !Hassoc. reflexivity.
Qed.

(** Auto-mode keys of two sessions whose run identifiers have the same
    length (as the text of two UUIDs has) coincide only for the same
    identifier and the same sequence number. *)
Theorem X8_auto_rows_across_sessions uid1 uid2 i j :
  String.length uid1 = String.length uid2 ->
  Writer.auto_row uid1 i = Writer.auto_row uid2 j -> uid1 = uid2 /\ i = j.
Proof.
  unfold Writer.auto_row. intros Hlen H.
  destruct (auto_row_length_inj uid1 uid2 _ _ Hlen H) as [-> H'].
  split; [reflexivity|]. simpl in H'. injection H' as H'. now apply str_int_inj.
Qed.

(** * Further properties of the cursor *)

Section MoreKeyOrder.
Import Cursor.
Implicit Types (a b k : str).

Lemma str_leb_refl a : str_leb a a = true.
Proof. unfold str_leb. now rewrite str_compare_refl. Qed.

Lemma str_leb_trans a b c :
  str_leb a b = true -> str_leb b c = true -> str_leb a c = true.
Proof.
  intros Hab Hbc. unfold str_leb in Hab.
  destruct (str_compare a b) eqn:E; try discriminate.
  - apply str_compare_eq in E. now subst.
  - apply str_ltb_leb. apply (str_ltb_leb_trans a b c); auto.
    unfold str_ltb. now rewrite E.
Qed.

(** A key strictly between [p ++ [x]] (included) and [p ++ [x + 1]]
    (excluded) starts with [p ++ [x]]. *)
Lemma in_bumped_range_prefix p : forall x k,
  str_leb (p ++ [x]) k = true -> str_ltb k (p ++ [x + 1]) = true ->
  exists s, k = (p ++ [x]) ++ s.
Proof.
  unfold str_leb, str_ltb.
  induction p as [|y p IH]; intros x [|z k]; simpl; try discriminate.
  - destruct (Z.compare_spec x z); destruct (Z.compare_spec z (x + 1));
      intros H1 H2; try discriminate; try lia.
    + subst z. now exists k.
    + destruct k; discriminate.
  - destruct (Z.compare_spec y z); destruct (Z.compare_spec z y);
      intros H1 H2; try discriminate; try lia.
    subst z. destruct (IH x k H1 H2) as [s ->]. now exists s.
Qed.

Lemma str_ltb_extension a s : s <> [] -> str_ltb a (a ++ s) = true.
Proof.
  intros Hs. unfold str_ltb. induction a as [|x a IH]; simpl.
  - destruct s; [contradiction|reflexivity].
  - now rewrite Z.compare_refl.
Qed.
End MoreKeyOrder.

Section MoreRounds.
Import Py Cursor.
Variable C : Type.
Variable scan : option str -> option str -> Z -> Z -> result (list (row C)).
Variable batch_size : Z.
Variable limit : option Z.

Abbreviation round := (round C scan batch_size limit).
Abbreviation run := (fun fuel => run C scan fuel batch_size limit).

Lemma batches_cons (c : cursor) (y : option (list (row C))) logs :
  batches (log_of C c y :: logs) =
  match y with Some data => [data] | None => [] end ++ batches logs.
Proof. unfold batches. simpl. now destruct y. Qed.

(** The log after any of its entries is the log of a run from the cursor
    that the entry's round left. *)
Lemma run_split fuel : forall c pre e post,
  fst (run fuel c) = pre ++ e :: post ->
  exists fuel' c0,
    e = log_of C c0 (batch e) /\
    match round c0 with
    | Continue data c1 =>
        batch e = Some data /\ post = fst (run fuel' c1) /\
        snd (run fuel c) = snd (run fuel' c1)
    | Finish y s => batch e = y /\ post = [] /\ snd (run fuel c) = Some s
    end.
Proof.
  induction fuel as [|fuel IH]; intros c pre e post Hlog.
  - now destruct pre.
  - rewrite run_S in *. destruct (round c) as [data c'|y s] eqn:Hr; simpl in *.
    + destruct pre as [|x pre]; simpl in Hlog; injection Hlog as Hx Hrest.
      * subst e. exists fuel, c. rewrite Hr. simpl. auto.
      * destruct (IH c' pre e post Hrest) as (fuel' & c0 & He & Hm).
        exists fuel', c0. split; [exact He|]. exact Hm.
    + symmetry in Hlog. apply app_cons_singleton in Hlog.
      destruct Hlog as (_ & -> & ->).
      exists fuel, c. rewrite Hr. simpl. auto.
Qed.

(** The size asked of the store never exceeds [batch_size]. *)
Lemma run_sizes_bounded fuel : forall c e,
  current_limit c <= batch_size ->
  In e (fst (run fuel c)) -> req_limit e <= batch_size.
Proof.
  induction fuel as [|fuel IH]; intros c e Hc Hin; [contradiction|].
  rewrite run_S in Hin. destruct (round c) as [data c'|y s] eqn:Hr; simpl in Hin.
  - destruct Hin as [<-|Hin]; [exact Hc|].
    apply (IH c' e); auto.
    destruct (round_continue C scan batch_size limit c data c' Hr)
      as (_ & _ & _ & _ & _ & _ & Hlim).
    destruct (limit_set limit) as [l|]; [destruct Hlim as [_ ->]|]; lia.
  - destruct Hin as [<-|[]]. exact Hc.
Qed.

Lemma first_limit_bounded : first_limit batch_size limit <= batch_size.
Proof.
  unfold first_limit. destruct (limit_set limit) as [l|]; [|lia].
  destruct (l >? batch_size) eqn:E; [lia|].
  rewrite Z.gtb_ltb in E. apply Z.ltb_ge in E. lia.
Qed.

Lemma init_cursor_bounds rs rst rp c :
  init_cursor rs rst rp batch_size limit = Ok c ->
  scan_bounds rs rst rp = Ok (row_start c, row_stop c) /\
  current_limit c = first_limit batch_size limit /\
  current_register c = 0.
Proof.
  unfold init_cursor. destruct (scan_bounds rs rst rp) as [[s e]|]; [|discriminate].
  intros H. injection H as <-. auto.
Qed.

(** Every entry of the log that yielded a batch holds what the scan
    returned for the entry's request. *)
Lemma run_batch_scanned fuel : forall c e data,
  In e (fst (run fuel c)) -> batch e = Some data ->
  scan (req_start e) (req_stop e) batch_size (req_limit e) = Ok data /\ data <> [].
Proof.
  induction fuel as [|fuel IH]; intros c e data Hin He; [contradiction|].
  rewrite run_S in Hin. destruct (round c) as [data' c'|y s] eqn:Hr; simpl in Hin.
  - destruct Hin as [<-|Hin]; [|eauto].
    simpl in He. injection He as ->.
    destruct (round_continue C scan batch_size limit c data c' Hr) as (Hs & Hlen & _).
    split; [exact Hs|]. intros ->. simpl in Hlen. lia.
  - destruct Hin as [<-|[]]. simpl in He. subst y.
    destruct (round_finish_yield C scan batch_size limit c data s Hr) as (Hs & Hne & _).
    auto.
Qed.

(** A run that ends on the limit has yielded at least [limit] rows. *)
Lemma run_limit_reached l fuel : forall c logs,
  limit_set limit = Some l ->
  run fuel c = (logs, Some LimitReached) ->
  l <= current_register c + rows_yielded logs.
Proof.
  induction fuel as [|fuel IH]; intros c logs Hl Hrun; [discriminate|].
  rewrite run_S in Hrun. destruct (round c) as [data c'|y s] eqn:Hr.
  - injection Hrun as <- Hs.
    destruct (round_continue C scan batch_size limit c data c' Hr)
      as (_ & _ & _ & _ & _ & Hreg & _).
    rewrite rows_yielded_cons.
    specialize (IH c' (fst (run fuel c')) Hl).
    rewrite <- Hs in IH. rewrite <- surjective_pairing in IH.
    specialize (IH eq_refl). lia.
  - injection Hrun as <- ->. rewrite rows_yielded_cons.
    replace (rows_yielded (@nil (round_log C))) with 0 by reflexivity.
    unfold Cursor.round in Hr.
    destruct (scan _ _ _ _) as [[|r data0]|e]; try discriminate.
    remember (r :: data0) as d eqn:Hd. clear Hd.
    destruct (Z.of_nat (List.length d) <=? 1); [discriminate|].
    rewrite Hl in Hr.
    destruct (_ >=? l) eqn:Hge.
    + injection Hr as <-. rewrite Z.geb_leb in Hge. apply Z.leb_le in Hge. lia.
    + destruct (incr_last (last_key d)); discriminate.
Qed.
End MoreRounds.

Section SortedLists.
Context {A : Type} (R : A -> A -> Prop).

Lemma sorted_filter (p : A -> bool) l :
  StronglySorted R l -> StronglySorted R (filter p l).
Proof.
  induction 1 as [|a l Hs IH Ha]; simpl; [constructor|].
  destruct (p a); auto. constructor; auto.
  rewrite Forall_forall in *. intros x Hx. apply filter_In in Hx. apply Ha, Hx.
Qed.

Lemma sorted_firstn n : forall l,
  StronglySorted R l -> StronglySorted R (firstn n l).
Proof.
  induction n as [|n IH]; intros l Hl; simpl; [constructor|].
  destruct Hl as [|a l Hs Ha]; constructor; auto.
  rewrite Forall_forall in *. intros x Hx. apply Ha. eapply in_firstn; eauto.
Qed.

Lemma sorted_app l1 l2 :
  StronglySorted R l1 -> StronglySorted R l2 ->
  (forall a b, In a l1 -> In b l2 -> R a b) ->
  StronglySorted R (l1 ++ l2).
Proof.
  induction 1 as [|a l1 Hs IH Ha]; simpl; intros H2 Hc; auto.
  constructor.
  - apply IH; [assumption|]. intros x y Hx Hy. apply Hc; [now right|assumption].
  - rewrite Forall_forall in *. intros x Hx. apply in_app_or in Hx.
    destruct Hx as [Hx|Hx]; [now apply Ha|]. apply Hc; [now left|assumption].
Qed.

Lemma sorted_app_inv l1 l2 a b :
  StronglySorted R (l1 ++ l2) -> In a l1 -> In b l2 -> R a b.
Proof.
  induction l1 as [|x l1 IH]; simpl; intros Hs Ha Hb; [contradiction|].
  inversion Hs as [|? ? Hs' Hx]; subst. destruct Ha as [->|Ha]; auto.
  rewrite Forall_forall in Hx. apply Hx. apply in_or_app. now right.
Qed.

Lemma sorted_app_right l1 l2 :
  StronglySorted R (l1 ++ l2) -> StronglySorted R l2.
Proof.
  induction l1 as [|x l1 IH]; simpl; auto.
  intros Hs. inversion Hs; auto.
Qed.
End SortedLists.

Section MoreStoreFacts.
Import Py Cursor.
Variable C : Type.
Variable store : list (row C).
Variable batch_size : Z.
Variable limit : option Z.

Abbreviation sscan := (store_scan C store).
Abbreviation sround := (Cursor.round C (store_scan C store) batch_size limit).
Abbreviation srun := (fun fuel => Cursor.run C (store_scan C store) fuel batch_size limit).
Abbreviation output fuel c :=
  (List.concat (batches (fst (Cursor.run C (store_scan C store) fuel batch_size limit c)))).

Lemma key_lt_trans (a b c : row C) : key_lt C a b -> key_lt C b c -> key_lt C a c.
Proof.
  unfold key_lt. intros Hab Hbc.
  eapply str_ltb_leb_trans; eauto. now apply str_ltb_leb.
Qed.

(** In a batch in key order no key is above the last one. *)
Lemma sorted_last_max (data : list (row C)) r :
  key_sorted C data -> In r data -> str_leb (fst r) (last_key data) = true.
Proof.
  intros Hs Hin.
  assert (Hne : data <> []) by (intros ->; contradiction).
  destruct (exists_last Hne) as (l & x & ->).
  unfold last_key. rewrite map_app. simpl. rewrite last_last.
  apply in_app_or in Hin. destruct Hin as [Hin|[<-|[]]].
  - apply str_ltb_leb. apply (sorted_app_inv (key_lt C) l [x] r x Hs Hin). now left.
  - apply str_leb_refl.
Qed.

(** When the loop goes round again the new start bound is the incremented
    last key, and the new range lies inside the old one. *)
Lemma advance_narrows c data c' :
  sround c = Continue data c' ->
  exists k,
    incr_last (last_key data) = Ok k /\ row_start c' = Some k /\
    row_stop c' = row_stop c /\
    forall key, in_range (Some k) (row_stop c) key = true ->
                in_range (row_start c) (row_stop c) key = true.
Proof.
  intros Hr.
  destruct (round_continue C sscan batch_size limit c data c' Hr)
    as (Hs & Hlen & Hk & Hsome & Hstop & _).
  destruct (row_start c') as [k|] eqn:Ek; [clear Hsome|congruence].
  exists k. repeat split; auto.
  assert (Hne : data <> []) by (intros ->; simpl in Hlen; lia).
  destruct (last_key_in C data Hne) as (r & Hin & Hkey).
  destruct (store_scan_in C store _ _ _ _ _ r Hs Hin) as (_ & Hrange).
  apply incr_last_above in Hk. rewrite <- Hkey in Hk.
  intros key Ha. unfold in_range in *.
  apply andb_true_iff in Ha. destruct Ha as [Ha1 Ha2].
  apply andb_true_iff in Hrange. destruct Hrange as [Hr1 _].
  apply andb_true_iff. split; [|exact Ha2].
  destruct (row_start c) as [s|]; auto.
  apply str_ltb_leb. eapply str_ltb_leb_trans; [|exact Ha1].
  eapply str_leb_ltb_trans; eauto.
Qed.

(** Every row yielded is a row of the table inside the cursor's bounds. *)
Lemma run_rows_in_range fuel : forall c r,
  In r (output fuel c) ->
  In r store /\ in_range (row_start c) (row_stop c) (fst r) = true.
Proof.
  induction fuel as [|fuel IH]; intros c r Hin; [contradiction|].
  rewrite run_S in Hin. destruct (sround c) as [data c'|y s] eqn:Hr; cbn [fst] in Hin.
  - rewrite batches_cons in Hin. simpl in Hin. apply in_app_or in Hin.
    destruct Hin as [Hin|Hin].
    + destruct (round_continue C sscan batch_size limit c data c' Hr) as (Hs & _).
      eapply store_scan_in; eauto.
    + destruct (IH c' r Hin) as [Hst Hrange].
      destruct (advance_narrows c data c' Hr) as (k & _ & Hk & Hstop & Hnarrow).
      rewrite Hk, Hstop in Hrange. auto.
  - rewrite batches_cons in Hin. destruct y as [data|]; [|contradiction].
    simpl in Hin. rewrite app_nil_r in Hin.
    destruct (round_finish_yield C sscan batch_size limit c data s Hr) as (Hs & _).
    eapply store_scan_in; eauto.
Qed.

Lemma store_scan_sorted start stop size lim data :
  key_sorted C store -> sscan start stop size lim = Ok data -> key_sorted C data.
Proof.
  intros Hs Hd. apply store_scan_ok in Hd. destruct Hd as (_ & _ & ->).
  apply sorted_firstn, sorted_filter, Hs.
Qed.

(** On a table in key order the rows come out in strictly increasing key
    order. *)
Lemma run_sorted fuel : forall c,
  key_sorted C store -> key_sorted C (output fuel c).
Proof.
  induction fuel as [|fuel IH]; intros c Hst; [constructor|].
  rewrite run_S. destruct (sround c) as [data c'|y s] eqn:Hr; cbn [fst].
  - rewrite batches_cons. simpl.
    destruct (round_continue C sscan batch_size limit c data c' Hr) as (Hs & _).
    destruct (advance_narrows c data c' Hr) as (k & Hk & Hstart & Hstop & _).
    pose proof (store_scan_sorted _ _ _ _ _ Hst Hs) as Hdata.
    apply sorted_app; [exact Hdata|now apply IH|].
    intros a b Ha Hb.
    apply run_rows_in_range in Hb. destruct Hb as [_ Hb].
    rewrite Hstart in Hb. unfold in_range in Hb.
    apply andb_true_iff in Hb. destruct Hb as [Hb _].
    unfold key_lt. eapply str_ltb_leb_trans; [|exact Hb].
    eapply str_leb_ltb_trans; [|apply incr_last_above; exact Hk].
    now apply sorted_last_max.
  - rewrite batches_cons. destruct y as [data|]; [|constructor].
    simpl. rewrite app_nil_r.
    destruct (round_finish_yield C sscan batch_size limit c data s Hr) as (Hs & _).
    eapply store_scan_sorted; eauto.
Qed.

Lemma sorted_keys_nodup (l : list (row C)) :
  key_sorted C l -> NoDup (map fst l).
Proof.
  induction 1 as [|a l Hs IH Ha]; simpl; constructor; auto.
  intros Hin. apply in_map_iff in Hin. destruct Hin as (b & Hb & Hin).
  rewrite Forall_forall in Ha. specialize (Ha b Hin). unfold key_lt in Ha.
  rewrite Hb, str_ltb_irrefl in Ha. discriminate.
Qed.
End MoreStoreFacts.

Section TableProperties.
Import Py Cursor.
Variable C : Type.
Variable store : list (row C).

Abbreviation scan_table fuel rs rst rp batch_size limit :=
  (get_hbase_data_batch C (store_scan C store) fuel rs rst rp batch_size limit).
Abbreviation rows_of logs := (List.concat (batches logs)).

Lemma batches_app (l1 l2 : list (round_log C)) :
  batches (l1 ++ l2) = batches l1 ++ batches l2.
Proof. unfold batches. apply flat_map_app. Qed.

Lemma last_key_app (l data : list (row C)) :
  data <> [] -> last_key (l ++ data) = last_key data.
Proof.
  intros Hne. destruct (exists_last Hne) as (d & x & ->).
  unfold last_key. rewrite app_assoc, !map_app. simpl. now rewrite !last_last.
Qed.

(** The range derived from a prefix holds exactly the keys that start with
    the prefix, and a scan by prefix yields only rows whose key starts with
    it. *)
Theorem X9_prefix_range_exact body x :
  let p := body ++ [x] in
  (forall k, in_range (Some p) (Some (body ++ [x + 1])) k = true <->
             exists s, k = p ++ s) /\
  (0 <= x < max_code_point ->
   forall fuel rs rst batch_size limit r,
     In r (rows_of (fst (scan_table fuel rs rst (Some p) batch_size limit))) ->
     In r store /\ exists s, fst r = p ++ s).
Proof.
  intros p.
  assert (Hiff : forall k, in_range (Some p) (Some (body ++ [x + 1])) k = true <->
                           exists s, k = p ++ s).
  { intros k. unfold in_range. rewrite andb_true_iff. split.
    - intros [H1 H2]. now apply in_bumped_range_prefix.
    - intros [s ->]. split; [apply str_leb_prefix|].
      subst p. rewrite <- app_assoc. apply str_ltb_bump. }
  split; [exact Hiff|].
  intros Hx fuel rs rst batch_size limit r Hin. cbv beta in Hin.
  assert (Hp : scan_bounds rs rst (Some p) = Ok (Some p, Some (body ++ [x + 1]))).
  { unfold scan_bounds. subst p. rewrite incr_last_ok by lia.
    destruct body; reflexivity. }
  unfold get_hbase_data_batch, init_cursor in Hin.
  rewrite Hp in Hin. cbn [bind fst snd] in Hin.
  apply run_rows_in_range in Hin. cbn [row_start row_stop] in Hin.
  destruct Hin as [Hst Hr]. split; [exact Hst|]. now apply Hiff.
Qed.

(** Every row yielded is a row of the table whose key lies inside the
    bounds of the scan (those passed, or those derived from the prefix). *)
Theorem X10_rows_within_bounds fuel rs rst rp batch_size limit r :
  In r (rows_of (fst (scan_table fuel rs rst rp batch_size limit))) ->
  In r store /\
  exists s e, scan_bounds rs rst rp = Ok (s, e) /\ in_range s e (fst r) = true.
Proof.
  intros Hin. cbv beta in Hin.
  destruct (get_hbase_data_batch_run C (store_scan C store) fuel rs rst rp
              batch_size limit) as [[Hnil _]|(c & Hc & E)].
  - rewrite Hnil in Hin. contradiction.
  - rewrite E in Hin. apply run_rows_in_range in Hin.
    destruct Hin as [Hst Hr]. split; [exact Hst|].
    apply init_cursor_bounds in Hc. destruct Hc as (Hb & _).
    eauto.
Qed.

(** On a table in key order the rows come out in strictly increasing key
    order across all batches, so no key is yielded twice. *)
Theorem X11_rows_in_key_order fuel rs rst rp batch_size limit :
  key_sorted C store ->
  let rows := rows_of (fst (scan_table fuel rs rst rp batch_size limit)) in
  key_sorted C rows /\ NoDup (map fst rows).
Proof.
  intros Hst rows.
  assert (Hs : key_sorted C rows).
  { subst rows. cbv beta.
    destruct (get_hbase_data_batch_run C (store_scan C store) fuel rs rst rp
                batch_size limit) as [[Hnil _]|(c & Hc & E)].
    - rewrite Hnil. constructor.
    - rewrite E. now apply run_sorted. }
  split; [exact Hs|]. now apply sorted_keys_nodup.
Qed.

(** On a table in key order, a row whose key is the last key of some
    yielded batch followed by more code points is never yielded, not even
    when the scan goes on to later keys: the next start bound, the last key
    with its final code point incremented, lies above every such key. *)
Theorem X12_extensions_of_last_key_lost fuel rs rst rp batch_size limit
    pre e post data r s :
  key_sorted C store ->
  fst (scan_table fuel rs rst rp batch_size limit) = pre ++ e :: post ->
  batch e = Some data ->
  In r (rows_of (fst (scan_table fuel rs rst rp batch_size limit))) ->
  s <> [] ->
  fst r <> last_key data ++ s.
Proof.
  intros Hst Hlog He Hin Hs Heq. cbv beta in Hlog, Hin.
  destruct (get_hbase_data_batch_run C (store_scan C store) fuel rs rst rp
              batch_size limit) as [[Hnil _]|(c & Hc & E)].
  { rewrite Hnil in Hlog. now destruct pre. }
  rewrite E in Hlog, Hin.
  pose proof (run_sorted C store batch_size limit fuel c Hst) as Hsorted.
  cbv beta in Hsorted.
  assert (Hne : data <> []).
  { eapply (run_batch_scanned C (store_scan C store) batch_size limit fuel c e);
      eauto. rewrite Hlog. apply in_or_app. right. now left. }
  assert (Hrows : rows_of (pre ++ e :: post) =
                  (rows_of pre ++ data) ++ rows_of post).
  { change (e :: post) with ([e] ++ post). rewrite !batches_app, !concat_app.
    unfold batches at 2. simpl. rewrite He. simpl.
    now rewrite app_nil_r, app_assoc. }
  rewrite Hlog in Hsorted, Hin. rewrite Hrows in Hsorted, Hin.
  pose proof (str_ltb_extension (last_key data) s Hs) as Hext.
  apply in_app_or in Hin. destruct Hin as [Hin|Hin].
  - assert (Hle : str_leb (fst r) (last_key data) = true).
    { rewrite <- (last_key_app (rows_of pre) data Hne).
      apply sorted_last_max; [|exact Hin].
      clear - Hsorted. unfold key_sorted in *.
      induction (rows_of pre ++ data) as [|a l IH]; simpl in *; [constructor|].
      inversion Hsorted as [|? ? Hl Ha]; subst. constructor; auto.
      rewrite Forall_forall in *. intros x Hx. apply Ha. apply in_or_app. now left. }
    rewrite Heq in Hle.
    pose proof (str_leb_ltb_trans _ _ _ Hle Hext) as Habs.
    rewrite str_ltb_irrefl in Habs. discriminate.
  - destruct (run_split C (store_scan C store) batch_size limit fuel c pre e post Hlog)
      as (fuel' & c0 & _ & Hm).
    destruct (Cursor.round C (store_scan C store) batch_size limit c0)
      as [data' c1|y st] eqn:Hr.
    + destruct Hm as (He' & Hpost & _). rewrite He in He'. injection He' as <-.
      rewrite Hpost in Hin. apply run_rows_in_range in Hin. destruct Hin as [_ Hin].
      destruct (advance_narrows C store batch_size limit c0 data c1 Hr)
        as (k & Hk & Hstart & _).
      rewrite Hstart in Hin. unfold in_range in Hin.
      apply andb_true_iff in Hin. destruct Hin as [Hin _].
      destruct (incr_last_inv _ _ Hk) as (p & x & Hp & -> & _).
      rewrite Heq, Hp, <- app_assoc in Hin. simpl in Hin.
      pose proof (str_ltb_bump p x s) as Hb.
      apply str_ltb_not_leb in Hb. congruence.
    + destruct Hm as (_ & -> & _). contradiction.
Qed.
End TableProperties.

Section SizeProperties.
Import Py Cursor.
Variable C : Type.
Variable scan : option str -> option str -> Z -> Z -> result (list (row C)).

Abbreviation scan_with fuel rs rst rp batch_size limit :=
  (get_hbase_data_batch C scan fuel rs rst rp batch_size limit).

(** When the store returns no more rows than asked for, every batch
    yielded holds at least one row and at most batch_size rows. *)
Theorem X13_batches_nonempty_and_bounded fuel rs rst rp batch_size limit e data :
  scan_respects_limit C scan ->
  In e (fst (scan_with fuel rs rst rp batch_size limit)) ->
  batch e = Some data ->
  1 <= Z.of_nat (List.length data) <= batch_size.
Proof.
  intros Hscan Hin He.
  destruct (get_hbase_data_batch_run C scan fuel rs rst rp batch_size limit)
    as [[Hnil _]|(c & Hc & E)].
  { rewrite Hnil in Hin. contradiction. }
  rewrite E in Hin.
  destruct (run_batch_scanned C scan batch_size limit fuel c e data Hin He)
    as [Hs Hne].
  apply Hscan in Hs.
  assert (Hreq : req_limit e <= batch_size).
  { apply (run_sizes_bounded C scan batch_size limit fuel c e); auto.
    apply init_cursor_bounds in Hc. destruct Hc as (_ & -> & _).
    apply first_limit_bounded. }
  assert (0 < Z.of_nat (List.length data)).
  { destruct data; [contradiction|]. simpl. lia. }
  lia.
Qed.

(** With a positive limit and a store that returns no more rows than asked
    for, a scan that ends on the limit has yielded exactly limit rows. *)
Theorem X14_limit_reached_exactly fuel rs rst rp batch_size l :
  0 < l ->
  scan_respects_limit C scan ->
  snd (scan_with fuel rs rst rp batch_size (Some l)) = Some LimitReached ->
  rows_yielded (fst (scan_with fuel rs rst rp batch_size (Some l))) = l.
Proof.
  intros Hl Hscan Hend.
  assert (Hset : limit_set (Some l) = Some l).
  { simpl. destruct (l =? 0) eqn:E; auto. apply Z.eqb_eq in E. lia. }
  destruct (get_hbase_data_batch_run C scan fuel rs rst rp batch_size (Some l))
    as [[_ [e He]]|(c & Hc & E)].
  { unfold get_hbase_data_batch in Hend. rewrite He in Hend. discriminate. }
  rewrite E in *.
  apply init_cursor_state in Hc. rewrite Hset in Hc. destruct Hc as [Hreg Hlim].
  pose proof (run_rows_bounded C scan batch_size (Some l) l fuel c Hscan Hset) as Hle.
  rewrite Hreg in Hle. specialize (Hle Hl). rewrite Z.sub_0_r in Hle.
  specialize (Hle Hlim).
  pose proof (run_limit_reached C scan batch_size (Some l) l fuel c
                (fst (run C scan fuel batch_size (Some l) c)) Hset) as Hge.
  rewrite <- Hend, <- surjective_pairing in Hge. specialize (Hge eq_refl).
  lia.
Qed.

(** With a batch size of 1 (or less) and a store that returns no more rows
    than asked for, the generator makes at most one round and yields at most
    one row, whatever the table holds and whatever the limit: the first
    batch is a single row and ends the scan. *)
Theorem X15_batch_size_one_stops_at_first_row fuel rs rst rp batch_size limit :
  scan_respects_limit C scan ->
  batch_size <= 1 ->
  (List.length (fst (scan_with fuel rs rst rp batch_size limit)) <= 1)%nat /\
  rows_yielded (fst (scan_with fuel rs rst rp batch_size limit)) <= 1.
Proof.
  intros Hscan Hb.
  destruct (get_hbase_data_batch_run C scan fuel rs rst rp batch_size limit)
    as [[Hnil _]|(c & Hc & E)].
  { rewrite Hnil. unfold rows_yielded; simpl. lia. }
  rewrite E.
  assert (Hcl : current_limit c <= 1).
  { apply init_cursor_bounds in Hc. destruct Hc as (_ & -> & _).
    pose proof (first_limit_bounded batch_size limit). lia. }
  destruct fuel as [|fuel]; [unfold rows_yielded; simpl; lia|].
  rewrite run_S.
  destruct (round C scan batch_size limit c) as [data c'|y s] eqn:Hr.
  - destruct (round_continue C scan batch_size limit c data c' Hr) as (Hs & Hlen & _).
    apply Hscan in Hs. lia.
  - cbn [fst]. rewrite rows_yielded_cons.
    replace (rows_yielded (@nil (round_log C))) with 0 by reflexivity.
    split; [simpl; lia|].
    destruct y as [data|]; [|lia].
    destruct (round_finish_yield C scan batch_size limit c data s Hr) as (Hs & _).
    apply Hscan in Hs. lia.
Qed.
End SizeProperties.

Lemma str_compare_antisym a : forall b,
  Cursor.str_compare b a = CompOpp (Cursor.str_compare a b).
Proof.
  induction a as [|x a IH]; intros [|y b]; simpl; auto.
  rewrite (Z.compare_antisym x y). destruct (x ?= y); simpl; auto.
Qed.

Lemma str_leb_false_ltb a b :
  Cursor.str_leb a b = false -> Cursor.str_ltb b a = true.
Proof.
  unfold Cursor.str_leb, Cursor.str_ltb. rewrite (str_compare_antisym a b).
  destruct (Cursor.str_compare a b); simpl; auto; discriminate.
Qed.

Lemma filter_narrowed {A : Type} (p q : A -> bool) (l : list A) :
  (forall a, q a = true -> p a = true) -> filter q l = filter q (filter p l).
Proof.
  intros Hqp. induction l as [|a l IH]; simpl; auto.
  destruct (p a) eqn:Hp; simpl.
  - destruct (q a); now rewrite IH.
  - destruct (q a) eqn:Hq; auto. rewrite (Hqp a Hq) in Hp. discriminate.
Qed.

Lemma filter_none {A : Type} (q : A -> bool) (l : list A) :
  (forall a, In a l -> q a = false) -> filter q l = [].
Proof.
  induction l as [|a l IH]; simpl; intros H; auto.
  rewrite (H a) by now left. apply IH. intros x Hx. apply H. now right.
Qed.

Lemma filter_every {A : Type} (q : A -> bool) (l : list A) :
  (forall a, In a l -> q a = true) -> filter q l = l.
Proof.
  induction l as [|a l IH]; simpl; intros H; auto.
  rewrite (H a) by now left. f_equal. apply IH. intros x Hx. apply H. now right.
Qed.

Section Completeness.
Import Py Cursor.
Variable C : Type.
Variable store : list (row C).
Variable batch_size : Z.
Variable limit : option Z.

Abbreviation in_bounds c :=
  (fun r : row C => in_range (row_start c) (row_stop c) (fst r)).

(** Without a limit in force, with a batch size of at least 2 that fits an
    i32, on a table in key order where every key can be advanced and no key
    extends another, the rounds from a cursor whose bounds can be sent
    yield exactly the rows inside its bounds, in order. *)
Lemma run_complete n : forall c,
  key_sorted C store -> no_key_extends C store ->
  Forall (fun r => advanceable (fst r)) store ->
  2 <= batch_size <= max_i32 -> limit_set limit = None ->
  current_limit c = batch_size ->
  bounds_encodable c ->
  (remaining C store c <= n)%nat ->
  exists logs s,
    run C (store_scan C store) (S n) batch_size limit c = (logs, Some s) /\
    List.concat (batches logs) = filter (in_bounds c) store.
Proof.
  induction n as [|n IH]; intros c Hsorted Hext Hkeys Hb Hl Hc Henc Hn.
  all: rewrite run_S.
  all: pose proof (firstn_skipn (Z.to_nat batch_size) (filter (in_bounds c) store))
         as Hsplit.
  all: assert (Hscan : store_scan C store (row_start c) (row_stop c) batch_size
                         (current_limit c) =
                       Ok (firstn (Z.to_nat batch_size) (filter (in_bounds c) store))).
  1, 3: rewrite Hc; destruct Henc as [Hs0 He0];
        apply (store_scan_accepts C store); auto; clear - Hb; lia.
  all: destruct (round C (store_scan C store) batch_size limit c)
         as [data c'|y s] eqn:Hr.
  all: try (pose proof (round_shrinks C store batch_size limit c data c' Hr) as Hlt).
  - lia.
  - exists [log_of C c y], s. split; [reflexivity|].
    rewrite batches_cons. simpl. rewrite app_nil_r.
    assert (HlenF : (List.length (filter (in_bounds c) store) <= 0)%nat) by exact Hn.
    revert Hscan HlenF. clear Hsplit.
    destruct (filter (in_bounds c) store) as [|r l]; intros Hscan HlenF;
      [|simpl in HlenF; lia].
    destruct y as [data|]; auto.
    destruct (round_finish_yield C _ batch_size limit c data s Hr) as (Hs & Hne & _).
    rewrite Hscan in Hs. injection Hs as <-. now rewrite firstn_nil in Hne.
  - destruct (round_continue C _ batch_size limit c data c' Hr)
      as (Hs & Hlen & _ & _ & _ & _ & Hlim).
    rewrite Hl in Hlim. rewrite Hscan in Hs. injection Hs as Hdata.
    destruct (advance_narrows C store batch_size limit c data c' Hr)
      as (k & Hk & Hstart & Hstop & Hnarrow).
    destruct (IH c') as (logs & s & Hrun & Hout); auto;
      [congruence|eapply advance_encodable; eauto|lia|].
    rewrite Hrun. cbn [fst snd].
    exists (log_of C c (Some data) :: logs), s. split; [reflexivity|].
    rewrite batches_cons. simpl. rewrite Hout.
    (* the rows above the new start bound are the rows not yet yielded *)
    rewrite Hdata in Hsplit.
    remember (skipn (Z.to_nat batch_size) (filter (in_bounds c) store)) as rest
      eqn:Hrest. clear Hrest Hdata.
    rewrite (filter_narrowed (in_bounds c) (in_bounds c') store).
    2: { intros a Ha. rewrite Hstart, Hstop in Ha. now apply Hnarrow. }
    assert (Hne : data <> []) by (intros ->; simpl in Hlen; lia).
    assert (HF : key_sorted C (data ++ rest)).
    { rewrite Hsplit. apply sorted_filter. exact Hsorted. }
    assert (Hin_store : forall a, In a (data ++ rest) ->
                                  In a store /\ in_bounds c a = true).
    { intros a Ha. rewrite Hsplit in Ha. now apply filter_In in Ha. }
    rewrite <- Hsplit. rewrite filter_app.
    rewrite filter_none, filter_every; [reflexivity| |].
    + intros b Hin.
      destruct (Hin_store b) as [Hbs Hbr]; [apply in_or_app; now right|].
      destruct (last_key_in C data Hne) as (x & Hx & Hxk).
      destruct (Hin_store x) as [Hxs _]; [apply in_or_app; now left|].
      assert (Hlt' : str_ltb (last_key data) (fst b) = true).
      { rewrite <- Hxk. apply (sorted_app_inv (key_lt C) _ _ x b HF Hx Hin). }
      rewrite Hstart, Hstop. unfold in_range in *.
      apply andb_true_iff in Hbr. destruct Hbr as [_ Hbr]. rewrite Hbr, andb_true_r.
      destruct (str_leb k (fst b)) eqn:Hkb; auto.
      apply str_leb_false_ltb in Hkb.
      destruct (incr_last_inv _ _ Hk) as (p & z & Hp & -> & _).
      rewrite Hp in Hlt'.
      destruct (in_bumped_range_prefix p z (fst b) (str_ltb_leb _ _ Hlt') Hkb)
        as [sfx Hsfx].
      rewrite <- Hp, <- Hxk in Hsfx.
      rewrite (Hext x b sfx Hxs Hbs Hsfx), app_nil_r in Hsfx.
      rewrite Hsfx, Hxk, Hp, str_ltb_irrefl in Hlt'. discriminate.
    + intros a Hin. rewrite Hstart, Hstop. unfold in_range.
      assert (Hle : str_leb (fst a) (last_key data) = true).
      { apply sorted_last_max; auto.
        clear - HF. unfold key_sorted in *.
        induction data as [|d l IHl]; simpl in *; [constructor|].
        inversion HF as [|? ? Hl' Ha]; subst. constructor; auto.
        rewrite Forall_forall in *. intros y Hy. apply Ha. apply in_or_app. now left. }
      pose proof (str_leb_ltb_trans _ _ _ Hle (incr_last_above _ _ Hk)) as Hak.
      now rewrite (str_ltb_not_leb _ _ Hak).
  - exists [log_of C c y], s. split; [reflexivity|].
    rewrite batches_cons. simpl. rewrite app_nil_r.
    destruct y as [data|].
    + destruct (round_finish_yield C _ batch_size limit c data s Hr) as (Hs & Hne & Hsingle).
      rewrite Hscan in Hs. injection Hs as Hdata.
      assert (Hone : (List.length data <= 1)%nat).
      { unfold Cursor.round in Hr. rewrite Hscan, Hdata in Hr.
        destruct data as [|r0 data0]; [contradiction|].
        destruct (Z.of_nat (List.length (r0 :: data0)) <=? 1) eqn:E;
          [apply Z.leb_le in E; lia|].
        exfalso. rewrite Hl in Hr.
        assert (Hinc : advanceable (last_key (r0 :: data0))).
        { destruct (last_key_in C (r0 :: data0)) as (x & Hx & <-); [discriminate|].
          rewrite Forall_forall in Hkeys. apply Hkeys.
          assert (Hx' : In x (filter (in_bounds c) store)).
          { rewrite <- Hsplit, Hdata. apply in_or_app. now left. }
          apply filter_In in Hx'. tauto. }
        destruct Hinc as (k & Hk & _). rewrite Hk in Hr. discriminate. }
      rewrite <- Hdata in Hone. rewrite length_firstn in Hone.
      rewrite <- Hdata. simpl. rewrite ?app_nil_r. apply firstn_all2. lia.
    + apply round_finish_nothing in Hr. rewrite Hscan in Hr. destruct Hr as [Hnil _].
      simpl. clear Hsplit Hscan.
      destruct (filter (in_bounds c) store) as [|r l]; auto.
      destruct (Z.to_nat batch_size) eqn:E; [lia|discriminate].
Qed.
End Completeness.

(** Without a limit in force (none, or 0) and with a batch size of at least
    2 that fits an i32, on a table in key order none of whose keys extends
    another and all of whose keys can be advanced (non-empty, last code
    point below U+10FFFF, no surrogate in the key once that code point is
    incremented), scanned between bounds that hold no surrogate, the scan
    ends normally and the batches, taken together, are exactly the rows of
    the table inside the bounds, in key order. *)
Theorem X16_unlimited_scan_complete (C : Type) (store : list (Cursor.row C))
    rs rst rp batch_size limit s0 e0 :
  Cursor.key_sorted C store ->
  Cursor.no_key_extends C store ->
  Forall (fun r => Cursor.advanceable (fst r)) store ->
  2 <= batch_size <= Cursor.max_i32 ->
  Cursor.limit_set limit = None ->
  Cursor.scan_bounds rs rst rp = Py.Ok (s0, e0) ->
  Cursor.bound_encodable s0 = true ->
  Cursor.bound_encodable e0 = true ->
  exists logs s,
    (forall fuel, (List.length store < fuel)%nat ->
       Cursor.get_hbase_data_batch C (Cursor.store_scan C store) fuel rs rst rp
         batch_size limit = (logs, Some s)) /\
    Cursor.normal s /\
    List.concat (Cursor.batches logs) =
    filter (fun r => Cursor.in_range s0 e0 (fst r)) store.
Proof.
  intros Hsorted Hext Hkeys Hb Hl Hbounds Hs0 He0.
  set (c := Cursor.MkCursor s0 e0 batch_size 0).
  assert (Hinit : Cursor.init_cursor rs rst rp batch_size limit = Py.Ok c).
  { unfold Cursor.init_cursor, Cursor.first_limit. rewrite Hbounds, Hl. reflexivity. }
  assert (Henc : Cursor.bounds_encodable c) by (split; assumption).
  destruct (run_complete C store batch_size limit (List.length store) c)
    as (logs & s & Hrun & Hout); auto.
  { apply filter_length_bound. }
  exists logs, s. split; [|split].
  - intros fuel Hfuel. unfold Cursor.get_hbase_data_batch. rewrite Hinit.
    apply (run_fuel_mono C _ batch_size limit (S (List.length store)) c logs s
             fuel Hrun). lia.
  - apply (run_normal C store batch_size limit (S (List.length store)) c logs s);
      auto; try lia.
    + now rewrite Hl.
    + simpl. lia.
  - exact Hout.
Qed.

(** * The further properties on concrete sessions and tables *)


(** The key of the record {x:1, y:2} for the row fields x, z is "1~": the
    absent field z gives an empty segment. *)
Example explicit_key_with_absent_field :
  rows_put pyval
    (fst (save_to_hbase pyval pyval_str created "uid" [0%nat] "t" a_x_b_all
            (Some ["x"; "z"]) 1000 one_record)) = ["1~"].
Proof. reflexivity. Qed.



(** A batch size of 0 is refused when the batch is opened: the table was
    created and opened, the record was neither copied nor put. *)
Example batch_size_zero_is_refused :
  save_to_hbase pyval pyval_str created "uid" [0%nat] "t" a_x_b_all None 0 one_record =
  (MkWorld [record_xy]
     [CreateTable "t" [("a", tt); ("b", tt)]; OpenTable "t"; NewBatch 0] [],
   Raise batch_size_error).
Proof. reflexivity. Qed.


Lemma X5_columns_characterised_witness :
  valid_mapping a_x_b_all /\
  NoDup (dict_keys (deref [record_xy] 0%nat)) /\
  Forall no_colon (map fst a_x_b_all) /\
  no_colon "b" /\
  exists values,
    build_values pyval pyval_str [record_xy] 0%nat a_x_b_all [] = Ok values /\
    forall s,
      dict_get values (column_id "b" "x") = Some s <->
      exists v sel,
        dict_get (deref [record_xy] 0%nat) "x" = Some v /\
        In ("b", sel) a_x_b_all /\ selects sel "x" /\ s = pyval_str v.
Proof.
  assert (Hv : valid_mapping a_x_b_all) by (repeat constructor; discriminate).
  assert (Hn : NoDup (dict_keys (deref [record_xy] 0%nat))).
  { repeat constructor; simpl; intuition discriminate. }
  assert (Hf : Forall no_colon (map fst a_x_b_all)).
  { repeat constructor; unfold no_colon; simpl; intuition discriminate. }
  assert (Hb : no_colon "b") by (unfold no_colon; simpl; intuition discriminate).
  split; [exact Hv|]. split; [exact Hn|]. split; [exact Hf|]. split; [exact Hb|].
  exact (X5_columns_characterised pyval pyval_str [record_xy] 0%nat a_x_b_all
           "b" "x" Hv Hn Hf Hb).
Defined.

Lemma X7_column_ids_unambiguous_witness :
  no_colon "a" /\ no_colon "b" /\
  (column_id "a" "x" = column_id "b" "y" -> "a" = "b" /\ "x" = "y").
Proof.
  assert (Ha : no_colon "a") by (unfold no_colon; simpl; intuition discriminate).
  assert (Hb : no_colon "b") by (unfold no_colon; simpl; intuition discriminate).
  split; [exact Ha|]. split; [exact Hb|].
  exact (proj1 (X7_column_ids_unambiguous "a" "b" "x" "y" "") Ha Hb).
Defined.

Lemma X8_auto_rows_across_sessions_witness :
  String.length "run1" = String.length "run1" /\
  auto_row "run1" 3 = auto_row "run1" 3 /\ "run1" = "run1" /\ 3 = 3.
Proof.
  split; [reflexivity|]. split; [reflexivity|].
  exact (X8_auto_rows_across_sessions "run1" "run1" 3 3 eq_refl eq_refl).
Defined.

Lemma sorted_users : key_sorted unit users.
Proof. unfold key_sorted, users, table. simpl. repeat constructor. Qed.

Lemma sorted_k1_to_k5 : key_sorted unit k1_to_k5.
Proof. unfold key_sorted, k1_to_k5, table. simpl. repeat constructor. Qed.

Lemma sorted_k2_extended : key_sorted unit k2_extended.
Proof. unfold key_sorted, k2_extended, table. simpl. repeat constructor. Qed.

Lemma X9_prefix_range_exact_witness :
  0 <= 57 < max_code_point /\
  In (of_string "user:9abc", tt)
     (List.concat (batches (fst (get_hbase_data_batch unit (store_scan unit users) 10
                                   None None (Some (of_string "user:" ++ [57]))
                                   10 None)))) /\
  exists s, of_string "user:9abc" = (of_string "user:" ++ [57]) ++ s.
Proof.
  assert (Hx : 0 <= 57 < max_code_point) by (unfold max_code_point; lia).
  assert (Hin : In (of_string "user:9abc", tt)
                  (List.concat (batches (fst (get_hbase_data_batch unit
                     (store_scan unit users) 10 None None
                     (Some (of_string "user:" ++ [57])) 10 None))))).
  { simpl. auto. }
  split; [exact Hx|]. split; [exact Hin|].
  exact (proj2 (proj2 (X9_prefix_range_exact unit users (of_string "user:") 57) Hx
                  10%nat None None 10 None (of_string "user:9abc", tt) Hin)).
Defined.

Lemma X10_rows_within_bounds_witness :
  In (of_string "k3", tt)
     (List.concat (batches (fst (get_hbase_data_batch unit (store_scan unit k1_to_k5) 10
                                   (Some (of_string "k2")) (Some (of_string "k5"))
                                   None 2 None)))) /\
  In (of_string "k3", tt) k1_to_k5.
Proof.
  assert (Hin : In (of_string "k3", tt)
                  (List.concat (batches (fst (get_hbase_data_batch unit
                     (store_scan unit k1_to_k5) 10 (Some (of_string "k2"))
                     (Some (of_string "k5")) None 2 None))))).
  { simpl. auto. }
  split; [exact Hin|].
  exact (proj1 (X10_rows_within_bounds unit k1_to_k5 10 (Some (of_string "k2"))
                  (Some (of_string "k5")) None 2 None (of_string "k3", tt) Hin)).
Defined.

Lemma X11_rows_in_key_order_witness :
  key_sorted unit k1_to_k5 /\
  NoDup (map fst (List.concat (batches (fst (get_hbase_data_batch unit
                                              (store_scan unit k1_to_k5) 10
                                              None None None 2 None))))).
Proof.
  split; [exact sorted_k1_to_k5|].
  exact (proj2 (X11_rows_in_key_order unit k1_to_k5 10 None None None 2 None
                  sorted_k1_to_k5)).
Defined.

(** On the keys k1, k2, k2a, k3 with batch_size 2 the batches are [k1, k2]
    and [k3]: the row k2a is never returned. *)
Example extension_of_last_key_is_skipped :
  get_hbase_data_batch unit (store_scan unit k2_extended) 10 None None None 2 None =
  ([MkLog None None 2 (Some (table ["k1"; "k2"]));
    MkLog (Some (of_string "k3")) None 2 (Some (table ["k3"]))],
   Some SingleRowTerminal).
Proof. reflexivity. Qed.

Lemma X12_extensions_of_last_key_lost_witness :
  key_sorted unit k2_extended /\
  [97] <> [] /\
  fst (of_string "k3", tt) <> last_key (table ["k1"; "k2"]) ++ [97].
Proof.
  assert (Hs : [97] <> []) by discriminate.
  split; [exact sorted_k2_extended|]. split; [exact Hs|].
  refine (X12_extensions_of_last_key_lost unit k2_extended 10 None None None 2 None
            [] (MkLog None None 2 (Some (table ["k1"; "k2"])))
            [MkLog (Some (of_string "k3")) None 2 (Some (table ["k3"]))]
            (table ["k1"; "k2"]) (of_string "k3", tt) [97]
            sorted_k2_extended eq_refl eq_refl _ Hs).
  simpl. auto.
Defined.

Lemma X13_batches_nonempty_and_bounded_witness :
  scan_respects_limit unit (store_scan unit k1_to_k5) /\
  1 <= Z.of_nat (List.length (table ["k1"; "k2"])) <= 2.
Proof.
  split; [exact (store_scan_respects_limit unit k1_to_k5)|].
  refine (X13_batches_nonempty_and_bounded unit (store_scan unit k1_to_k5) 10
            None None None 2 None (MkLog None None 2 (Some (table ["k1"; "k2"])))
            (table ["k1"; "k2"]) (store_scan_respects_limit unit k1_to_k5) _ eq_refl).
  simpl. auto.
Defined.

Lemma X14_limit_reached_exactly_witness :
  0 < 4 /\
  snd (get_hbase_data_batch unit (store_scan unit k1_to_k5) 10 None None None 2
         (Some 4)) = Some LimitReached /\
  rows_yielded (fst (get_hbase_data_batch unit (store_scan unit k1_to_k5) 10
                       None None None 2 (Some 4))) = 4.
Proof.
  assert (Hl : 0 < 4) by reflexivity.
  split; [exact Hl|]. split; [reflexivity|].
  exact (X14_limit_reached_exactly unit (store_scan unit k1_to_k5) 10 None None None
           2 4 Hl (store_scan_respects_limit unit k1_to_k5) eq_refl).
Defined.

Lemma X15_batch_size_one_stops_at_first_row_witness :
  1 <= 1 /\
  rows_yielded (fst (get_hbase_data_batch unit (store_scan unit k1_to_k5) 10
                       None None None 1 None)) <= 1.
Proof.
  assert (Hb : 1 <= 1) by lia.
  split; [exact Hb|].
  exact (proj2 (X15_batch_size_one_stops_at_first_row unit (store_scan unit k1_to_k5)
                  10 None None None 1 None
                  (store_scan_respects_limit unit k1_to_k5) Hb)).
Defined.

Lemma X16_unlimited_scan_complete_witness :
  key_sorted unit k1_to_k5 /\
  no_key_extends unit k1_to_k5 /\
  Forall (fun r : row unit => advanceable (fst r)) k1_to_k5 /\
  2 <= 2 <= max_i32 /\
  bound_encodable (Some (of_string "k2")) = true /\
  exists logs s,
    get_hbase_data_batch unit (store_scan unit k1_to_k5) 6
      (Some (of_string "k2")) None None 2 None = (logs, Some s) /\
    List.concat (batches logs) =
    filter (fun r => in_range (Some (of_string "k2")) None (fst r)) k1_to_k5.
Proof.
  assert (Hb : 2 <= 2 <= max_i32) by (unfold max_i32; lia).
  assert (Hext : no_key_extends unit k1_to_k5).
  { intros a b s Ha Hb' Heq. simpl in Ha, Hb'.
    repeat (destruct Ha as [<-|Ha]; [|]); try contradiction;
    repeat (destruct Hb' as [<-|Hb']; [|]); try contradiction;
    simpl in Heq; injection Heq; intros; subst; try reflexivity; discriminate. }
  assert (Hk : Forall (fun r : row unit => advanceable (fst r)) k1_to_k5).
  { repeat constructor; eexists; split; reflexivity. }
  split; [exact sorted_k1_to_k5|]. split; [exact Hext|]. split; [exact Hk|].
  split; [exact Hb|]. split; [reflexivity|].
  destruct (X16_unlimited_scan_complete unit k1_to_k5 (Some (of_string "k2")) None
              None 2 None (Some (of_string "k2")) None sorted_k1_to_k5 Hext Hk Hb
              eq_refl eq_refl eq_refl eq_refl) as (logs & s & Hrun & _ & Hout).
  exists logs, s. split; [apply Hrun; simpl; lia|exact Hout].
Defined.

(** * The scan under a limit *)

Lemma firstn_plus {A : Type} (m : nat) : forall j (l : list A),
  firstn (m + j) l = firstn m l ++ firstn j (skipn m l).
Proof.
  induction m as [|m IH]; intros j l; simpl; [reflexivity|].
  destruct l as [|a l]; simpl.
  - now rewrite firstn_nil.
  - now rewrite IH.
Qed.

Section LimitedCompleteness.
Import Py Cursor.
Variable C : Type.
Variable store : list (row C).
Variable batch_size : Z.
Variable limit : option Z.

Abbreviation within c :=
  (fun r : row C => in_range (row_start c) (row_stop c) (fst r)).

(** On a table in key order where no key extends another, the rows inside
    the bounds after a round are the rows inside the bounds before it minus
    the rows the round asked for. *)
Lemma advance_exact c data c' m :
  key_sorted C store -> no_key_extends C store ->
  round C (store_scan C store) batch_size limit c = Continue data c' ->
  data = firstn m (filter (within c) store) ->
  filter (within c') store = skipn m (filter (within c) store).
Proof.
  intros Hsorted Hext Hr Hdata.
  destruct (round_continue C _ batch_size limit c data c' Hr) as (_ & Hlen & _).
  destruct (advance_narrows C store batch_size limit c data c' Hr)
    as (k & Hk & Hstart & Hstop & Hnarrow).
  pose proof (firstn_skipn m (filter (within c) store)) as Hsplit.
  rewrite <- Hdata in Hsplit.
  remember (skipn m (filter (within c) store)) as rest eqn:Hrest. clear Hrest Hdata.
  rewrite (filter_narrowed (within c) (within c') store).
  2: { intros a Ha. rewrite Hstart, Hstop in Ha. now apply Hnarrow. }
  assert (Hne : data <> []) by (intros ->; simpl in Hlen; lia).
  assert (HF : key_sorted C (data ++ rest)).
  { rewrite Hsplit. apply sorted_filter. exact Hsorted. }
  assert (Hin_store : forall a, In a (data ++ rest) ->
                                In a store /\ within c a = true).
  { intros a Ha. rewrite Hsplit in Ha. now apply filter_In in Ha. }
  rewrite <- Hsplit. rewrite filter_app.
  rewrite filter_none, filter_every; [reflexivity| |].
  - intros b Hin.
    destruct (Hin_store b) as [Hbs Hbr]; [apply in_or_app; now right|].
    destruct (last_key_in C data Hne) as (x & Hx & Hxk).
    destruct (Hin_store x) as [Hxs _]; [apply in_or_app; now left|].
    assert (Hlt' : str_ltb (last_key data) (fst b) = true).
    { rewrite <- Hxk. apply (sorted_app_inv (key_lt C) _ _ x b HF Hx Hin). }
    rewrite Hstart, Hstop. unfold in_range in *.
    apply andb_true_iff in Hbr. destruct Hbr as [_ Hbr]. rewrite Hbr, andb_true_r.
    destruct (str_leb k (fst b)) eqn:Hkb; auto.
    apply str_leb_false_ltb in Hkb.
    destruct (incr_last_inv _ _ Hk) as (p & z & Hp & -> & _).
    rewrite Hp in Hlt'.
    destruct (in_bumped_range_prefix p z (fst b) (str_ltb_leb _ _ Hlt') Hkb)
      as [sfx Hsfx].
    rewrite <- Hp, <- Hxk in Hsfx.
    rewrite (Hext x b sfx Hxs Hbs Hsfx), app_nil_r in Hsfx.
    rewrite Hsfx, Hxk, Hp, str_ltb_irrefl in Hlt'. discriminate.
  - intros a Hin. rewrite Hstart, Hstop. unfold in_range.
    assert (Hle : str_leb (fst a) (last_key data) = true).
    { apply sorted_last_max; auto.
      clear - HF. unfold key_sorted in *.
      induction data as [|d l IHl]; simpl in *; [constructor|].
      inversion HF as [|? ? Hl' Ha]; subst. constructor; auto.
      rewrite Forall_forall in *. intros y Hy. apply Ha. apply in_or_app. now left. }
    pose proof (str_leb_ltb_trans _ _ _ Hle (incr_last_above _ _ Hk)) as Hak.
    now rewrite (str_ltb_not_leb _ _ Hak).
Qed.

Lemma store_scan_first c :
  1 <= batch_size <= max_i32 -> 1 <= current_limit c ->
  bounds_encodable c ->
  store_scan C store (row_start c) (row_stop c) batch_size (current_limit c) =
  Ok (firstn (Z.to_nat (current_limit c)) (filter (within c) store)).
Proof.
  intros Hb Hc [Hs0 He0]. now apply store_scan_accepts.
Qed.

(** Under a limit, the round that ends the generator yields what was still
    owed: the first [l - rows already yielded] rows inside the bounds. *)
Lemma finish_limited l c y s :
  Forall (fun r => advanceable (fst r)) store ->
  2 <= batch_size <= max_i32 -> limit_set limit = Some l ->
  0 <= current_register c < l ->
  current_limit c = Z.min batch_size (l - current_register c) ->
  bounds_encodable c ->
  round C (store_scan C store) batch_size limit c = Finish y s ->
  normal s /\
  match y with Some data => data | None => [] end =
  firstn (Z.to_nat (l - current_register c)) (filter (within c) store).
Proof.
  intros Hkeys Hb Hl Hreg Hc Henc Hr.
  unfold round in Hr. rewrite store_scan_first in Hr by (auto; lia).
  pose proof (length_firstn (Z.to_nat (current_limit c)) (filter (within c) store))
    as Hlen.
  assert (Hsub : forall x, In x (firstn (Z.to_nat (current_limit c))
                                        (filter (within c) store)) -> In x store).
  { intros x Hx. apply in_firstn in Hx. apply filter_In in Hx. tauto. }
  remember (firstn (Z.to_nat (current_limit c)) (filter (within c) store)) as d
    eqn:Hd.
  destruct d as [|r0 d0].
  - injection Hr as <- <-. split; [exact I|].
    destruct (filter (within c) store) as [|r1 l1]; [now rewrite firstn_nil|].
    simpl in Hlen. lia.
  - assert (Hnd : r0 :: d0 <> []) by discriminate.
    remember (r0 :: d0) as d' eqn:Hd'. clear Hd'.
    destruct (Z.of_nat (List.length d') <=? 1) eqn:Hone.
    + injection Hr as <- <-. split; [exact I|]. apply Z.leb_le in Hone.
      rewrite Hd.
      destruct (Z.eq_dec (current_limit c) (l - current_register c)) as [He|He].
      * now rewrite He.
      * rewrite !firstn_all2; [reflexivity| |]; lia.
    + apply Z.leb_gt in Hone. rewrite Hl in Hr.
      destruct (current_register c + Z.of_nat (List.length d') >=? l) eqn:Hge.
      * injection Hr as <- <-. split; [exact I|].
        rewrite Z.geb_leb in Hge. apply Z.leb_le in Hge.
        rewrite Hd. f_equal. lia.
      * exfalso.
        assert (Hinc : advanceable (last_key d')).
        { destruct (last_key_in C d' Hnd) as (x & Hx & <-).
          rewrite Forall_forall in Hkeys. apply Hkeys. now apply Hsub. }
        destruct Hinc as (k & Hk & _). rewrite Hk in Hr. discriminate.
Qed.

(** Under a limit [l], with a batch size of at least 2 that fits an i32,
    on a table in key order where every key can be advanced and no key
    extends another, the rounds from a cursor whose bounds can be sent
    yield the first [l - rows already yielded] rows inside its bounds. *)
Lemma run_complete_limited l n : forall c,
  key_sorted C store -> no_key_extends C store ->
  Forall (fun r => advanceable (fst r)) store ->
  2 <= batch_size <= max_i32 -> limit_set limit = Some l ->
  0 <= current_register c < l ->
  current_limit c = Z.min batch_size (l - current_register c) ->
  bounds_encodable c ->
  (remaining C store c <= n)%nat ->
  exists logs s,
    run C (store_scan C store) (S n) batch_size limit c = (logs, Some s) /\
    normal s /\
    List.concat (batches logs) =
    firstn (Z.to_nat (l - current_register c)) (filter (within c) store).
Proof.
  induction n as [|n IH]; intros c Hsorted Hext Hkeys Hb Hl Hreg Hc Henc Hn.
  all: rewrite run_S.
  all: destruct (round C (store_scan C store) batch_size limit c)
         as [data c'|y s] eqn:Hr.
  all: try (pose proof (round_shrinks C store batch_size limit c data c' Hr) as Hlt).
  - lia.
  - exists [log_of C c y], s. split; [reflexivity|].
    destruct (finish_limited l c y s Hkeys Hb Hl Hreg Hc Henc Hr) as [Hnorm Hout].
    split; [exact Hnorm|].
    rewrite batches_cons. rewrite <- Hout. destruct y; simpl; now rewrite ?app_nil_r.
  - destruct (round_continue C _ batch_size limit c data c' Hr)
      as (Hs & Hlen & _ & _ & _ & Hreg' & Hlim).
    rewrite Hl in Hlim. destruct Hlim as [Hlt' Hlim].
    rewrite store_scan_first in Hs by (auto; lia).
    injection Hs as Hdata. symmetry in Hdata.
    pose proof (advance_exact c data c' _ Hsorted Hext Hr Hdata) as Hrest.
    destruct (IH c') as (logs & s & Hrun & Hnorm & Hout); auto;
      [lia|eapply advance_encodable; eauto|lia|].
    rewrite Hrun. cbn [fst snd].
    exists (log_of C c (Some data) :: logs), s. split; [reflexivity|].
    split; [exact Hnorm|].
    rewrite batches_cons. simpl. rewrite Hout, Hrest, Hreg'.
    pose proof (length_firstn (Z.to_nat (current_limit c)) (filter (within c) store))
      as Hlenm.
    rewrite <- Hdata in Hlenm.
    destruct (Nat.le_gt_cases (Z.to_nat (current_limit c))
                (List.length (filter (within c) store))) as [Hm|Hm].
    + replace (Z.to_nat (l - current_register c))
        with (Z.to_nat (current_limit c) +
              Z.to_nat (l - (current_register c + Z.of_nat (List.length data))))%nat
        by lia.
      rewrite firstn_plus. now rewrite <- Hdata.
    + rewrite skipn_all2 by lia. rewrite firstn_nil, app_nil_r.
      rewrite Hdata, !firstn_all2; [reflexivity| |]; lia.
  - exists [log_of C c y], s. split; [reflexivity|].
    destruct (finish_limited l c y s Hkeys Hb Hl Hreg Hc Henc Hr) as [Hnorm Hout].
    split; [exact Hnorm|].
    rewrite batches_cons. rewrite <- Hout. destruct y; simpl; now rewrite ?app_nil_r.
Qed.
End LimitedCompleteness.

(** With a positive limit and a batch size of at least 2 that fits an i32,
    on a table in key order none of whose keys extends another and all of
    whose keys can be advanced (non-empty, last code point below U+10FFFF,
    no surrogate in the key once that code point is incremented), scanned
    between bounds that hold no surrogate, the scan ends normally and its
    batches, taken together, are exactly the first [limit] rows of the
    table inside the bounds (all of them when there are fewer). *)
Theorem X17_limited_scan_yields_first_rows (C : Type) (store : list (Cursor.row C))
    rs rst rp batch_size l s0 e0 :
  Cursor.key_sorted C store ->
  Cursor.no_key_extends C store ->
  Forall (fun r => Cursor.advanceable (fst r)) store ->
  2 <= batch_size <= Cursor.max_i32 ->
  0 < l ->
  Cursor.scan_bounds rs rst rp = Py.Ok (s0, e0) ->
  Cursor.bound_encodable s0 = true ->
  Cursor.bound_encodable e0 = true ->
  exists logs s,
    (forall fuel, (List.length store < fuel)%nat ->
       Cursor.get_hbase_data_batch C (Cursor.store_scan C store) fuel rs rst rp
         batch_size (Some l) = (logs, Some s)) /\
    Cursor.normal s /\
    List.concat (Cursor.batches logs) =
    firstn (Z.to_nat l) (filter (fun r => Cursor.in_range s0 e0 (fst r)) store).
Proof.
  intros Hsorted Hext Hkeys Hb Hl Hbounds Hs0 He0.
  assert (Hset : Cursor.limit_set (Some l) = Some l).
  { simpl. destruct (l =? 0) eqn:E; auto. apply Z.eqb_eq in E. lia. }
  set (c := Cursor.MkCursor s0 e0 (Cursor.first_limit batch_size (Some l)) 0).
  assert (Hinit : Cursor.init_cursor rs rst rp batch_size (Some l) = Py.Ok c).
  { unfold Cursor.init_cursor. rewrite Hbounds. reflexivity. }
  assert (Henc : Cursor.bounds_encodable c) by (split; assumption).
  destruct (run_complete_limited C store batch_size (Some l) l (List.length store) c)
    as (logs & s & Hrun & Hnorm & Hout); auto.
  { simpl. lia. }
  { simpl. unfold Cursor.first_limit. rewrite Hset.
    destruct (l >? batch_size) eqn:E; rewrite Z.gtb_ltb in E;
      [apply Z.ltb_lt in E|apply Z.ltb_ge in E]; lia. }
  { apply filter_length_bound. }
  exists logs, s. split; [|split].
  - intros fuel Hfuel. unfold Cursor.get_hbase_data_batch. rewrite Hinit.
    apply (run_fuel_mono C _ batch_size (Some l) (S (List.length store)) c logs s
             fuel Hrun). lia.
  - exact Hnorm.
  - rewrite Hout. simpl. now rewrite Z.sub_0_r.
Qed.

Lemma X17_limited_scan_yields_first_rows_witness :
  key_sorted unit k1_to_k5 /\
  no_key_extends unit k1_to_k5 /\
  Forall (fun r : row unit => advanceable (fst r)) k1_to_k5 /\
  2 <= 2 <= max_i32 /\ 0 < 3 /\
  bound_encodable (Some (of_string "k2")) = true /\
  exists logs s,
    get_hbase_data_batch unit (store_scan unit k1_to_k5) 6
      (Some (of_string "k2")) None None 2 (Some 3) = (logs, Some s) /\
    List.concat (batches logs) = table ["k2"; "k3"; "k4"].
Proof.
  assert (Hb : 2 <= 2 <= max_i32) by (unfold max_i32; lia).
  assert (Hl : 0 < 3) by lia.
  assert (Hext : no_key_extends unit k1_to_k5).
  { intros a b s Ha Hb' Heq. simpl in Ha, Hb'.
    repeat (destruct Ha as [<-|Ha]; [|]); try contradiction;
    repeat (destruct Hb' as [<-|Hb']; [|]); try contradiction;
    simpl in Heq; injection Heq; intros; subst; try reflexivity; discriminate. }
  assert (Hk : Forall (fun r : row unit => advanceable (fst r)) k1_to_k5).
  { repeat constructor; eexists; split; reflexivity. }
  split; [exact sorted_k1_to_k5|]. split; [exact Hext|]. split; [exact Hk|].
  split; [exact Hb|]. split; [exact Hl|]. split; [reflexivity|].
  destruct (X17_limited_scan_yields_first_rows unit k1_to_k5 (Some (of_string "k2"))
              None None 2 3 (Some (of_string "k2")) None sorted_k1_to_k5 Hext Hk Hb Hl
              eq_refl eq_refl eq_refl) as (logs & s & Hrun & _ & Hout).
  exists logs, s. split; [apply Hrun; simpl; lia|exact Hout].
Defined.
